(** * 60-LED spectrum analyser firmware: buffer hand-off and frame pipeline

    A shallow embedding of [fw/60led_srl/60led_srl.ino] (and of the parts it
    shares with [fw/fft_test/fft_test.ino]): the two audio buffers exchanged
    between the PDM interrupt callback [onPDMdata] and the foreground [loop],
    [RemoveDCBias], the band aggregation over [frequency_bins_count], and the
    per-band automatic gain in single-precision arithmetic. *)

From Stdlib Require Import ZArith QArith List Lia Bool.
From Stdlib Require Import Floats.SpecFloat.
Import ListNotations.
Open Scope Z_scope.

(** ** Machine integers *)

(** [short]: 16-bit two's complement; a conversion to [short] wraps. *)
Definition to_short (z : Z) : Z := (z + 32768) mod 65536 - 32768.

(** [int32_t] / [int]: 32-bit two's complement. *)
Definition to_int32 (z : Z) : Z := (z + 2147483648) mod 4294967296 - 2147483648.

(** [uint32_t] and [uint8_t]. *)
Definition to_uint32 (z : Z) : Z := z mod 4294967296.
Definition to_uint8 (z : Z) : Z := z mod 256.

Definition is_short (z : Z) : Prop := -32768 <= z <= 32767.

(** ** Single-precision floats ([float]), by the IEEE-754 specification of the
    Standard Library at precision 24 and maximal exponent 128. *)

Definition float : Set := spec_float.

Module F32.

Definition prec : Z := 24.
Definition emax : Z := 128.

Definition mul : float -> float -> float := SFmul prec emax.
Definition div : float -> float -> float := SFdiv prec emax.
Definition add : float -> float -> float := SFadd prec emax.
Definition ltb : float -> float -> bool := SFltb.
Definition leb : float -> float -> bool := SFleb.

(** Conversion of an integer to [float] (round to nearest even). *)
Definition of_Z (z : Z) : float := binary_normalize prec emax z 0 false.

(** A decimal literal [n/d] with the suffix [f]: the nearest float. *)
Definition literal (n d : Z) : float := div (of_Z n) (of_Z d).

(** [static_cast<int>(x)]: truncation toward zero; undefined ([None]) for
    NaN, the infinities and values outside [int]. *)
Definition to_int (x : float) : option Z :=
  match x with
  | S754_zero _ => Some 0
  | S754_finite s m e =>
      let a := if 0 <=? e then Z.shiftl (Zpos m) e else Z.shiftr (Zpos m) (- e) in
      let v := if s then - a else a in
      if (-2147483648 <=? v) && (v <=? 2147483647) then Some v else None
  | _ => None
  end.

(** [std::max(a, b)] is [(a < b) ? b : a]. *)
Definition max (a b : float) : float := if ltb a b then b else a.

Definition zero : float := S754_zero false.
Definition one : float := Eval vm_compute in of_Z 1.

(** The rational a finite float stands for (0 for NaN and the infinities). *)
Definition to_Q (x : float) : Q :=
  match x with
  | S754_finite s m e =>
      ((if s then -1 else 1) * inject_Z (Zpos m) * Qpower 2 e)%Q
  | _ => 0%Q
  end.

End F32.

(** ** Constants of the sketch *)

Definition NUMPIXELS : Z := 60.
Definition frequency : Z := 16000.
Definition fft_size : Z := 1024.

Definition frequency_bins_count : list Z :=
  [ 1;  1;  1;  1;  1;  1;  1;  1;  1;  1;
    1;  1;  1;  1;  1;  1;  1;  1;  1;  1;
    1;  1;  1;  1;  1;  1;  1;  1;  1;  1;
    1;  1;  1;  1;  1;  1;  1;  1;  1;  1;
    2;  2;  2;  2;  2;  2;  2;  2;  2;  3;
   25; 26; 27; 28; 29; 30; 32; 33; 34; 130 ].

Definition raw_min_value : Z := 6.

(** [0.005f] *)
Definition min_auto_gain : float := Eval vm_compute in F32.literal 5 1000.
(** [0.997f] *)
Definition decay_factor : float := Eval vm_compute in F32.literal 997 1000.
(** [250.0f] *)
Definition green_scale : float := Eval vm_compute in F32.of_Z 250.

(** ** Memory shared by the interrupt callback and the main loop *)

(** The two statically allocated blocks.  A [short*] or [int*] of the sketch
    always points at the first or at the second of them. *)
Inductive block := Block1 | Block2.

Definition block_eqb (a b : block) : bool :=
  match a, b with
  | Block1, Block1 | Block2, Block2 => true
  | _, _ => false
  end.

(** [(p == &buffer1_size) ? &buffer2_size : &buffer1_size], and the same
    expression on the buffers. *)
Definition other (p : block) : block :=
  if block_eqb p Block1 then Block2 else Block1.

Record memory := {
  audio_buffer1 : list Z;
  buffer1_size : Z;
  audio_buffer2 : list Z;
  buffer2_size : Z;
  write_buffer : block;
  write_size : block;
  read_buffer : block;
  read_size : block;
  auto_gain_level : list float;
  pixels : list Z;
  loop_count : Z
}.

(** [*p] for a size pointer and the block a buffer pointer designates. *)
Definition size_at (m : memory) (p : block) : Z :=
  match p with Block1 => buffer1_size m | Block2 => buffer2_size m end.

Definition buffer_at (m : memory) (p : block) : list Z :=
  match p with Block1 => audio_buffer1 m | Block2 => audio_buffer2 m end.

Definition set_size (m : memory) (p : block) (v : Z) : memory :=
  match p with
  | Block1 =>
      {| audio_buffer1 := audio_buffer1 m; buffer1_size := v;
         audio_buffer2 := audio_buffer2 m; buffer2_size := buffer2_size m;
         write_buffer := write_buffer m; write_size := write_size m;
         read_buffer := read_buffer m; read_size := read_size m;
         auto_gain_level := auto_gain_level m; pixels := pixels m;
         loop_count := loop_count m |}
  | Block2 =>
      {| audio_buffer1 := audio_buffer1 m; buffer1_size := buffer1_size m;
         audio_buffer2 := audio_buffer2 m; buffer2_size := v;
         write_buffer := write_buffer m; write_size := write_size m;
         read_buffer := read_buffer m; read_size := read_size m;
         auto_gain_level := auto_gain_level m; pixels := pixels m;
         loop_count := loop_count m |}
  end.

Definition set_buffer (m : memory) (p : block) (b : list Z) : memory :=
  match p with
  | Block1 =>
      {| audio_buffer1 := b; buffer1_size := buffer1_size m;
         audio_buffer2 := audio_buffer2 m; buffer2_size := buffer2_size m;
         write_buffer := write_buffer m; write_size := write_size m;
         read_buffer := read_buffer m; read_size := read_size m;
         auto_gain_level := auto_gain_level m; pixels := pixels m;
         loop_count := loop_count m |}
  | Block2 =>
      {| audio_buffer1 := audio_buffer1 m; buffer1_size := buffer1_size m;
         audio_buffer2 := b; buffer2_size := buffer2_size m;
         write_buffer := write_buffer m; write_size := write_size m;
         read_buffer := read_buffer m; read_size := read_size m;
         auto_gain_level := auto_gain_level m; pixels := pixels m;
         loop_count := loop_count m |}
  end.

Definition set_write (m : memory) (sz buf : block) : memory :=
  {| audio_buffer1 := audio_buffer1 m; buffer1_size := buffer1_size m;
     audio_buffer2 := audio_buffer2 m; buffer2_size := buffer2_size m;
     write_buffer := buf; write_size := sz;
     read_buffer := read_buffer m; read_size := read_size m;
     auto_gain_level := auto_gain_level m; pixels := pixels m;
     loop_count := loop_count m |}.

Definition set_read_size (m : memory) (sz : block) : memory :=
  {| audio_buffer1 := audio_buffer1 m; buffer1_size := buffer1_size m;
     audio_buffer2 := audio_buffer2 m; buffer2_size := buffer2_size m;
     write_buffer := write_buffer m; write_size := write_size m;
     read_buffer := read_buffer m; read_size := sz;
     auto_gain_level := auto_gain_level m; pixels := pixels m;
     loop_count := loop_count m |}.

Definition set_read_buffer (m : memory) (buf : block) : memory :=
  {| audio_buffer1 := audio_buffer1 m; buffer1_size := buffer1_size m;
     audio_buffer2 := audio_buffer2 m; buffer2_size := buffer2_size m;
     write_buffer := write_buffer m; write_size := write_size m;
     read_buffer := buf; read_size := read_size m;
     auto_gain_level := auto_gain_level m; pixels := pixels m;
     loop_count := loop_count m |}.

Definition set_display (m : memory) (gains : list float) (px : list Z) : memory :=
  {| audio_buffer1 := audio_buffer1 m; buffer1_size := buffer1_size m;
     audio_buffer2 := audio_buffer2 m; buffer2_size := buffer2_size m;
     write_buffer := write_buffer m; write_size := write_size m;
     read_buffer := read_buffer m; read_size := read_size m;
     auto_gain_level := gains; pixels := px;
     loop_count := loop_count m |}.

Definition set_loop_count (m : memory) (c : Z) : memory :=
  {| audio_buffer1 := audio_buffer1 m; buffer1_size := buffer1_size m;
     audio_buffer2 := audio_buffer2 m; buffer2_size := buffer2_size m;
     write_buffer := write_buffer m; write_size := write_size m;
     read_buffer := read_buffer m; read_size := read_size m;
     auto_gain_level := auto_gain_level m; pixels := pixels m;
     loop_count := c |}.

(** The globals as their initialisers leave them. *)
Definition static_memory : memory :=
  {| audio_buffer1 := repeat 0 (Z.to_nat fft_size); buffer1_size := 0;
     audio_buffer2 := repeat 0 (Z.to_nat fft_size); buffer2_size := 0;
     write_buffer := Block1; write_size := Block1;
     read_buffer := Block1; read_size := Block1;
     auto_gain_level := repeat (S754_zero false) (Z.to_nat NUMPIXELS);
     pixels := repeat 0 (Z.to_nat NUMPIXELS);
     loop_count := 0 |}.

(** [setup]: every [auto_gain_level[i]] becomes [min_auto_gain]; the rest of
    it starts the peripherals. *)
Definition setup (m : memory) : memory :=
  set_display m (map (fun _ => min_auto_gain) (auto_gain_level m)) (pixels m).

Definition initial_memory : memory := setup static_memory.

(** ** The sampling peripheral *)

(** Modelled from the spec: the PDM library is not part of this repository.
    The peripheral holds the unread mono samples in arrival order;
    [available] reports them in bytes (two per sample) and [read] moves the
    requested number of bytes, oldest first, to the destination. *)
Definition PDM_available (q : list Z) : Z := 2 * Z.of_nat (length q).

Definition PDM_read (q : list Z) (bytes : Z) : list Z * list Z :=
  let n := Z.to_nat (bytes / 2) in (firstn n q, skipn n q).

(** Writing [data] at [&buf[off]]. *)
Definition store_samples (buf : list Z) (off : Z) (data : list Z) : list Z :=
  firstn (Z.to_nat off) buf ++ data
    ++ skipn (Z.to_nat off + length data) buf.

(** ** [onPDMdata] *)

(** Lines 224-232: the transfer from the peripheral into the write block. *)
Definition onPDMdata_read (m : memory) (q : list Z) : memory * list Z :=
  let available_space_samples := fft_size - size_at m (write_size m) in
  let samples_available := Z.shiftr (PDM_available q) 1 in
  let samples_to_read := Z.min available_space_samples samples_available in
  let '(data, q') := PDM_read q (samples_to_read * 2) in
  let m1 :=
    set_buffer m (write_buffer m)
      (store_samples (buffer_at m (write_buffer m))
                     (size_at m (write_size m)) data) in
  (set_size m1 (write_size m1) (size_at m1 (write_size m1) + samples_to_read),
   q').

(** Lines 234-245: the hand-off once the write block is complete. *)
Definition onPDMdata_handoff (m : memory) : memory :=
  if size_at m (write_size m) =? fft_size then
    let maybe_next := other (write_size m) in
    if negb (size_at m maybe_next =? 0) then
      set_size m (write_size m) 0
    else
      set_write m maybe_next (other (write_buffer m))
  else m.

Definition onPDMdata (m : memory) (q : list Z) : memory * list Z :=
  let '(m1, q') := onPDMdata_read m q in
  (onPDMdata_handoff m1, q').

(** ** [RemoveDCBias] *)

Definition RemoveDCBias (data : list Z) : list Z :=
  let n := Z.to_nat fft_size in
  let avg := fold_left (fun a d => to_int32 (a + d)) (firstn n data) 0 in
  let avg := to_int32 (Z.quot avg fft_size) in
  map (fun d => to_short (d - avg)) (firstn n data) ++ skipn n data.

(** ** The band loop of [loop] (lines 166-204) *)

(** Lines 170-172: [count] bins are added to [total], from [fft_offset] on.
    The difference is converted to [short] by [std::max<short>]. *)
Fixpoint band_total (read_buf : list Z) (count : nat) (fft_offset : Z)
    (total : float) : float * Z :=
  match count with
  | O => (total, fft_offset)
  | S c =>
      band_total read_buf c (fft_offset + 1)
        (F32.add total
           (F32.of_Z
              (Z.max 0
                 (to_short
                    (nth (Z.to_nat fft_offset) read_buf 0 - raw_min_value)))))
  end.

(** Lines 178-182: the new value of [auto_gain_level[i]]. *)
Definition update_auto_gain (level g : float) : float :=
  if F32.ltb g level then level
  else F32.max min_auto_gain (F32.mul g decay_factor).

(** [Adafruit_NeoPixel::Color], of the display library: three [uint8_t]
    components packed into one word. *)
Definition Color (r g b : Z) : Z :=
  Z.lor (Z.lor (Z.shiftl (to_uint8 r) 16) (Z.shiftl (to_uint8 g) 8))
        (to_uint8 b).

(** The locals of one iteration of the outer loop. *)
Record band_result := {
  band_level : float;             (* [level] *)
  band_auto_gain : float;         (* [auto_gain_level[i]] after the update *)
  band_gain_level : float;        (* [gain_level], stored in [pixel_values] *)
  band_green : option Z           (* [g] *)
}.

Definition render_band (read_buf : list Z) (count fft_offset : Z) (g : float)
    : band_result * Z :=
  let '(total, fft_offset') :=
    band_total read_buf (Z.to_nat count) fft_offset F32.zero in
  let level := total in
  let g' := update_auto_gain level g in
  let gain_level := F32.div level g' in
  ({| band_level := level;
      band_auto_gain := g';
      band_gain_level := gain_level;
      band_green := F32.to_int (F32.mul gain_level green_scale) |},
   fft_offset').

Fixpoint render_bands (read_buf : list Z) (counts : list Z)
    (gains : list float) (fft_offset : Z) : list band_result :=
  match counts, gains with
  | c :: counts', g :: gains' =>
      let '(r, fft_offset') := render_band read_buf c fft_offset g in
      r :: render_bands read_buf counts' gains' fft_offset'
  | _, _ => []
  end.

(** The colour handed to [setPixelColor]; the conversion of a [float]
    outside [int] is undefined, and such a pixel is left as it was. *)
Definition band_color (old : Z) (r : band_result) : Z :=
  match band_green r with
  | Some g => Color 0 g 0
  | None => old
  end.

Fixpoint set_pixels (old : list Z) (rs : list band_result) : list Z :=
  match old, rs with
  | o :: old', r :: rs' => band_color o r :: set_pixels old' rs'
  | _, _ => old
  end.

(** ** [loop], one statement group at a time *)

Inductive loop_pc :=
| AtPoll         (* line 141 *)
| AtRemoveDC     (* line 156 *)
| AtFFT          (* line 158 *)
| AtRender       (* lines 166-208 *)
| AtMarkEmpty    (* line 211 *)
| AtNextSize     (* line 214 *)
| AtNextBuffer.  (* line 215 *)

Section Loop.

(** [ZeroFFT] of the Adafruit library: an in-place transform of the block. *)
Variable ZeroFFT : list Z -> list Z.

Definition loop_step (pc : loop_pc) (m : memory) : loop_pc * memory :=
  match pc with
  | AtPoll =>
      if negb (size_at m (read_size m) =? fft_size) then (AtPoll, m)
      else (AtRemoveDC, set_loop_count m (to_uint32 (loop_count m + 1)))
  | AtRemoveDC =>
      (AtFFT,
       set_buffer m (read_buffer m)
         (RemoveDCBias (buffer_at m (read_buffer m))))
  | AtFFT =>
      (AtRender,
       set_buffer m (read_buffer m) (ZeroFFT (buffer_at m (read_buffer m))))
  | AtRender =>
      let rs :=
        render_bands (buffer_at m (read_buffer m)) frequency_bins_count
          (auto_gain_level m) 1 in
      (AtMarkEmpty,
       set_display m (map band_auto_gain rs) (set_pixels (pixels m) rs))
  | AtMarkEmpty => (AtNextSize, set_size m (read_size m) 0)
  | AtNextSize => (AtNextBuffer, set_read_size m (other (read_size m)))
  | AtNextBuffer => (AtPoll, set_read_buffer m (other (read_buffer m)))
  end.

(** One uninterrupted call of [loop]: the seven statement groups in a row,
    or seven times the poll that returns at once. *)
Definition loop (m : memory) : memory :=
  snd (Nat.iter 7 (fun s => loop_step (fst s) (snd s)) (AtPoll, m)).

(** ** The two contexts together *)

(** The callback runs to completion whenever it fires (it is an interrupt
    handler); the foreground advances one statement group at a time. *)
Inductive event :=
| Interrupt (available : list Z)
| Foreground.

Definition system := (loop_pc * memory)%type.

Definition system_step (s : system) (e : event) : system :=
  match e with
  | Interrupt q => (fst s, fst (onPDMdata (snd s) q))
  | Foreground => loop_step (fst s) (snd s)
  end.

Definition run (es : list event) (s : system) : system :=
  fold_left system_step es s.

Definition initial_system : system := (AtPoll, initial_memory).

Definition reachable (s : system) : Prop :=
  exists es, run es initial_system = s.

End Loop.

(** ** Specification vocabulary *)

(** The number of samples one call moves. *)
Definition samples_moved (m : memory) (q : list Z) : Z :=
  Z.min (fft_size - size_at m (write_size m)) (Z.of_nat (length q)).

(** What the foreground may assume about its pointers at each point of
    [loop], relative to the write pointer. *)
Definition read_phase (pc : loop_pc) (m : memory) : Prop :=
  let W := write_size m in
  match pc with
  | AtPoll =>
      read_buffer m = read_size m /\
      ((read_size m = W /\ size_at m (other W) = 0) \/
       (read_size m = other W /\ size_at m (other W) = fft_size))
  | AtRemoveDC | AtFFT | AtRender | AtMarkEmpty =>
      read_buffer m = read_size m /\
      read_size m = other W /\ size_at m (other W) = fft_size
  | AtNextSize =>
      read_buffer m = read_size m /\
      ((read_size m = other W /\ size_at m (other W) = 0) \/
       (read_size m = W /\ size_at m (other W) = fft_size))
  | AtNextBuffer =>
      read_size m = other (read_buffer m) /\
      ((read_buffer m = other W /\ size_at m (other W) = 0) \/
       (read_buffer m = W /\ size_at m (other W) = fft_size))
  end.

(** The invariant of the exchange: the write pointers agree, the write block
    is never complete between two calls of the callback, and the read
    pointers are where [read_phase] says. *)
Definition handoff_inv (s : loop_pc * memory) : Prop :=
  write_buffer (snd s) = write_size (snd s) /\
  0 <= size_at (snd s) (write_size (snd s)) < fft_size /\
  read_phase (fst s) (snd s).




(** The contribution of one bin to its band. *)
Definition bin_energy (x : Z) : Z := Z.max 0 (to_short (x - raw_min_value)).

(** The slices of bins of the bands as the specification words them: the walk
    starts at bin [first] and every band takes [bin_span] consecutive bins, in
    band order.  A slice is its first bin and its number of bins. *)
Fixpoint band_slices (counts : list Z) (first : Z) : list (Z * Z) :=
  match counts with
  | [] => []
  | c :: counts' => (first, c) :: band_slices counts' (first + c)
  end.

(** The raw energy of a slice of the spectrum. *)
Definition slice_level (read_buf : list Z) (sl : Z * Z) : float :=
  fold_left (fun t x => F32.add t (F32.of_Z (bin_energy x)))
    (firstn (Z.to_nat (snd sl)) (skipn (Z.to_nat (fst sl)) read_buf))
    F32.zero.

Definition sum_Z (l : list Z) : Z := fold_right Z.add 0 l.

Definition is_shortb (z : Z) : bool := (-32768 <=? z) && (z <=? 32767).

(** The arithmetic mean of a block, by truncating integer division. *)
Definition block_mean (data : list Z) : Z := Z.quot (sum_Z data) fft_size.

(** A complete block of samples at the two ends of the [short] range. *)
Definition extreme_block : list Z := repeat 32767 768 ++ repeat (-32768) 256.

(** The level of one band after a sequence of frames with the given raw
    energies, from the level [g0]. *)
Definition gain_after (levels : list float) (g0 : float) : float :=
  fold_left (fun g level => update_auto_gain level g) levels g0.

(** A sequence of raw energies that rises strictly, frame after frame, and
    starts above [g0]. *)
Fixpoint rising_from (g0 : float) (levels : list float) : Prop :=
  match levels with
  | [] => True
  | level :: levels' => F32.ltb g0 level = true /\ rising_from level levels'
  end.

(** One frame of decay. *)
Definition decay_once (g : float) : float :=
  F32.max min_auto_gain (F32.mul g decay_factor).

(** A spectrum whose bin 1, the only bin of band 0, holds
    [raw_min_value + 10], and the two frames the loop renders from it,
    starting with the levels [setup] leaves. *)
Definition tone_spectrum : list Z := 0 :: (raw_min_value + 10) :: repeat 0 1022.

Definition tone_frame1 : list band_result :=
  render_bands tone_spectrum frequency_bins_count
    (repeat min_auto_gain 60) 1.

Definition tone_frame2 : list band_result :=
  render_bands tone_spectrum frequency_bins_count
    (map band_auto_gain tone_frame1) 1.

Definition no_band : band_result :=
  {| band_level := S754_nan; band_auto_gain := S754_nan;
     band_gain_level := S754_nan; band_green := None |}.

(** A positive normal [float]: 24 significant bits, exponent of the last
    bit between [lo] and [hi]. *)
Definition positive_normal (lo hi : Z) (x : float) : bool :=
  match x with
  | S754_finite false m e =>
      (8388608 <=? Zpos m) && (Zpos m <? 16777216) && (lo <=? e) && (e <=? hi)
  | _ => false
  end.

(** The raw energy of a band is 0 or at least 1 and below [2^24]. *)
Definition level_ok (level : float) : Prop :=
  level = F32.zero \/ positive_normal (-23) 0 level = true.

(** The levels a band can have: at least [min_auto_gain], below [2^24]. *)
Definition gain_ok (g : float) : Prop :=
  positive_normal (-31) 0 g = true /\ F32.leb min_auto_gain g = true.

(** [8413852 * 2^-23], about 1.0030093. *)
Definition normalized_bound : float := S754_finite false 8413852 (-23).

(** The canonical form of the integer [N], [0 < N < 2^24]. *)
Definition canon (N : Z) : float :=
  S754_finite false (Z.to_pos (N * 2 ^ (24 - Z.log2 N - 1)))
              (Z.log2 N + 1 - 24).

(** The sum of the contributions of [count] bins from [fft_offset] on. *)
Fixpoint slice_energy (read_buf : list Z) (count : nat) (fft_offset : Z) : Z :=
  match count with
  | O => 0
  | S c =>
      bin_energy (nth (Z.to_nat fft_offset) read_buf 0)
      + slice_energy read_buf c (fft_offset + 1)
  end.

(** What one iteration of the band loop leaves for a band whose level was
    [g] before the frame. *)
Definition frame_ok (g : float) (r : band_result) : Prop :=
  level_ok (band_level r) /\
  band_auto_gain r = update_auto_gain (band_level r) g /\
  gain_ok (band_auto_gain r) /\
  band_gain_level r = F32.div (band_level r) (band_auto_gain r) /\
  (F32.ltb g (band_level r) = true ->
     band_gain_level r = F32.one /\ band_green r = Some 250) /\
  F32.leb F32.zero (band_gain_level r) = true /\
  F32.leb (band_gain_level r) normalized_bound = true /\
  exists k, band_green r = Some k /\ 0 <= k <= 250 /\ to_uint8 k = k.

(** Every band has a level in the range of [gain_ok]. *)
Definition gains_ok (m : memory) : Prop :=
  length (auto_gain_level m) = 60%nat /\ Forall gain_ok (auto_gain_level m).

(** * Properties *)

(** ** Pointers and blocks *)

Lemma other_involutive (p : block) : other (other p) = p.
Proof. destruct p; reflexivity. Qed.

Lemma other_neq (p : block) : other p <> p.
Proof. destruct p; discriminate. Qed.

Lemma size_at_set_size_same m p v : size_at (set_size m p v) p = v.
Proof. destruct p; reflexivity. Qed.

Lemma size_at_set_size_other m p v : size_at (set_size m p v) (other p) = size_at m (other p).
Proof. destruct p; reflexivity. Qed.

Lemma size_at_set_size_of_other m p v : size_at (set_size m (other p) v) p = size_at m p.
Proof. destruct p; reflexivity. Qed.

Lemma size_at_set_buffer m p b r : size_at (set_buffer m p b) r = size_at m r.
Proof. destruct p, r; reflexivity. Qed.

Lemma buffer_at_set_buffer_same m p b : buffer_at (set_buffer m p b) p = b.
Proof. destruct p; reflexivity. Qed.

Lemma buffer_at_set_buffer_other m p b :
  buffer_at (set_buffer m p b) (other p) = buffer_at m (other p).
Proof. destruct p; reflexivity. Qed.


Lemma buffer_at_set_size m p v r : buffer_at (set_size m p v) r = buffer_at m r.
Proof. destruct p, r; reflexivity. Qed.

Lemma pointers_set_size m p v :
  write_size (set_size m p v) = write_size m /\
  write_buffer (set_size m p v) = write_buffer m /\
  read_size (set_size m p v) = read_size m /\
  read_buffer (set_size m p v) = read_buffer m.
Proof. destruct p; repeat split. Qed.

Lemma pointers_set_buffer m p b :
  write_size (set_buffer m p b) = write_size m /\
  write_buffer (set_buffer m p b) = write_buffer m /\
  read_size (set_buffer m p b) = read_size m /\
  read_buffer (set_buffer m p b) = read_buffer m.
Proof. destruct p; repeat split. Qed.

(** ** The peripheral *)

Lemma samples_available_length (q : list Z) :
  Z.shiftr (PDM_available q) 1 = Z.of_nat (length q).
Proof.
  unfold PDM_available. rewrite Z.shiftr_div_pow2 by lia.
  change (2 ^ 1) with 2. rewrite Z.mul_comm. apply Z.div_mul. lia.
Qed.

Lemma PDM_read_samples (q : list Z) (n : Z) :
  PDM_read q (n * 2) = (firstn (Z.to_nat n) q, skipn (Z.to_nat n) q).
Proof. unfold PDM_read. rewrite Z.div_mul by lia. reflexivity. Qed.

Lemma store_samples_length buf off data :
  0 <= off -> off + Z.of_nat (length data) <= Z.of_nat (length buf) ->
  length (store_samples buf off data) = length buf.
Proof.
  intros H0 H1. unfold store_samples.
  rewrite !length_app, length_firstn, length_skipn. lia.
Qed.

Lemma store_samples_nth buf off data i :
  0 <= off <= Z.of_nat (length buf) -> (i < length data)%nat ->
  nth (Z.to_nat off + i) (store_samples buf off data) 0 = nth i data 0.
Proof.
  intros H0 Hi. unfold store_samples.
  rewrite app_nth2; rewrite length_firstn; [|lia].
  replace (Z.to_nat off + i - Nat.min (Z.to_nat off) (length buf))%nat with i by lia.
  apply app_nth1. exact Hi.
Qed.

Lemma store_samples_before buf off data i :
  0 <= off <= Z.of_nat (length buf) -> (i < Z.to_nat off)%nat ->
  nth i (store_samples buf off data) 0 = nth i buf 0.
Proof.
  intros H0 Hi. unfold store_samples.
  rewrite app_nth1 by (rewrite length_firstn; lia).
  rewrite <- (firstn_skipn (Z.to_nat off) buf) at 2.
  rewrite app_nth1 by (rewrite length_firstn; lia). reflexivity.
Qed.

Lemma store_samples_after buf off data i :
  0 <= off -> (Z.to_nat off + length data <= i)%nat ->
  nth i (store_samples buf off data) 0 = nth i buf 0.
Proof.
  intros H0 Hi. unfold store_samples.
  destruct (Nat.le_gt_cases (length buf) i) as [Hlen | Hlen].
  - rewrite !nth_overflow; [reflexivity | lia |].
    rewrite !length_app, length_firstn, length_skipn. lia.
  - rewrite app_nth2 by (rewrite length_firstn; lia).
    rewrite app_nth2 by (rewrite length_firstn; lia).
    rewrite length_firstn, nth_skipn. f_equal. lia.
Qed.

(** ** What one call of [onPDMdata] does *)

Lemma onPDMdata_read_eq m q :
  onPDMdata_read m q =
    (let n := samples_moved m q in
     let data := firstn (Z.to_nat n) q in
     let m1 := set_buffer m (write_buffer m)
                 (store_samples (buffer_at m (write_buffer m))
                                (size_at m (write_size m)) data) in
     set_size m1 (write_size m) (size_at m (write_size m) + n),
     skipn (Z.to_nat (samples_moved m q)) q).
Proof.
  unfold onPDMdata_read, samples_moved.
  rewrite samples_available_length, PDM_read_samples. cbv zeta.
  rewrite size_at_set_buffer.
  replace (write_size (set_buffer m (write_buffer m) _)) with (write_size m)
    by (destruct (write_buffer m); reflexivity).
  reflexivity.
Qed.

(** C9.  A call of [onPDMdata] that finds [w] samples in the write block
    (0 <= w <= fft_size) and [a] samples in the peripheral moves exactly
    [min (fft_size - w) a] samples, the oldest ones in their order, to the
    offsets [w], [w+1], ... of the write block, leaves the rest of the block
    and the other block as they were, keeps the remaining samples in the
    peripheral, and advances the fill count by exactly that amount, which is
    not negative and does not take the count past [fft_size]. *)
Theorem onPDMdata_read_moves_min (m : memory) (q : list Z) :
  let w := size_at m (write_size m) in
  let a := Z.shiftr (PDM_available q) 1 in
  let n := Z.min (fft_size - w) a in
  let old := buffer_at m (write_buffer m) in
  let m' := fst (onPDMdata_read m q) in
  let q' := snd (onPDMdata_read m q) in
  let new := buffer_at m' (write_buffer m) in
  0 <= w <= fft_size ->
  Z.of_nat (length old) = fft_size ->
  0 <= n /\
  q = firstn (Z.to_nat n) q ++ q' /\
  Z.of_nat (length q') = a - n /\
  length new = length old /\
  (forall i, (i < Z.to_nat n)%nat ->
     nth (Z.to_nat w + i) new 0 = nth i q 0) /\
  (forall i, (i < Z.to_nat w)%nat \/ (Z.to_nat (w + n) <= i)%nat ->
     nth i new 0 = nth i old 0) /\
  buffer_at m' (other (write_buffer m)) = buffer_at m (other (write_buffer m)) /\
  size_at m' (write_size m) = w + n /\
  w <= w + n <= fft_size /\
  size_at m' (other (write_size m)) = size_at m (other (write_size m)) /\
  write_size m' = write_size m /\ write_buffer m' = write_buffer m.
Proof.
  intros w a n old m' q' new Hw Hlen.
  assert (Ha : a = Z.of_nat (length q)) by apply samples_available_length.
  clearbody a.
  assert (Hn : 0 <= n <= a) by (unfold n; lia).
  assert (Hm' : m' = set_size
                       (set_buffer m (write_buffer m)
                          (store_samples old w (firstn (Z.to_nat n) q)))
                       (write_size m) (w + n)).
  { unfold m'. rewrite onPDMdata_read_eq. unfold samples_moved.
    rewrite <- Ha. reflexivity. }
  assert (Hq' : q' = skipn (Z.to_nat n) q).
  { unfold q'. rewrite onPDMdata_read_eq. unfold samples_moved.
    rewrite <- Ha. reflexivity. }
  assert (Hdata : length (firstn (Z.to_nat n) q) = Z.to_nat n).
  { rewrite length_firstn. lia. }
  assert (Hnew : new = store_samples old w (firstn (Z.to_nat n) q)).
  { unfold new. rewrite Hm', buffer_at_set_size, buffer_at_set_buffer_same.
    reflexivity. }
  split; [lia|].
  split; [rewrite Hq'; symmetry; apply firstn_skipn|].
  split; [rewrite Hq', length_skipn; lia|].
  split.
  { rewrite Hnew. apply store_samples_length; [lia|]. rewrite Hdata.
    unfold n in *. lia. }
  split.
  { intros i Hi. rewrite Hnew, store_samples_nth by lia.
    rewrite <- (firstn_skipn (Z.to_nat n) q) at 2.
    rewrite app_nth1 by lia. reflexivity. }
  split.
  { intros i [Hi | Hi]; rewrite Hnew.
    - apply store_samples_before; lia.
    - apply store_samples_after; lia. }
  split.
  { rewrite Hm', buffer_at_set_size, buffer_at_set_buffer_other. reflexivity. }
  split.
  { rewrite Hm', size_at_set_size_same. reflexivity. }
  split; [unfold n; lia|].
  split.
  { rewrite Hm', size_at_set_size_other, size_at_set_buffer. reflexivity. }
  rewrite Hm'.
  destruct (pointers_set_size
              (set_buffer m (write_buffer m)
                 (store_samples old w (firstn (Z.to_nat n) q)))
              (write_size m) (w + n)) as (-> & -> & _).
  destruct (pointers_set_buffer m (write_buffer m)
              (store_samples old w (firstn (Z.to_nat n) q))) as (-> & -> & _).
  split; reflexivity.
Qed.

Lemma onPDMdata_read_moves_min_witness :
  0 <= size_at initial_memory (write_size initial_memory) <= fft_size /\
  Z.of_nat (length (buffer_at initial_memory (write_buffer initial_memory)))
    = fft_size /\
  size_at (fst (onPDMdata_read initial_memory [5; -3; 7])) Block1 = 0 + 3 /\
  nth 1 (buffer_at (fst (onPDMdata_read initial_memory [5; -3; 7])) Block1) 0
    = -3.
Proof.
  assert (H1 : 0 <= size_at initial_memory (write_size initial_memory) <= fft_size)
    by (vm_compute; split; discriminate).
  assert (H2 : Z.of_nat (length (buffer_at initial_memory
                                   (write_buffer initial_memory))) = fft_size)
    by reflexivity.
  split; [exact H1|]. split; [exact H2|].
  destruct (onPDMdata_read_moves_min initial_memory [5; -3; 7] H1 H2)
    as (_ & _ & _ & _ & Hnth & _ & _ & Hsize & _).
  split; [exact Hsize|]. exact (Hnth 1%nat ltac:(vm_compute; lia)).
Defined.

Lemma onPDMdata_handoff_eq m :
  onPDMdata_handoff m =
    if size_at m (write_size m) =? fft_size then
      if size_at m (other (write_size m)) =? 0
      then set_write m (other (write_size m)) (other (write_buffer m))
      else set_size m (write_size m) 0
    else m.
Proof.
  unfold onPDMdata_handoff.
  destruct (size_at m (write_size m) =? fft_size); [|reflexivity].
  destruct (size_at m (other (write_size m)) =? 0); reflexivity.
Qed.

Lemma onPDMdata_eq m q :
  onPDMdata m q =
    (onPDMdata_handoff (fst (onPDMdata_read m q)), snd (onPDMdata_read m q)).
Proof. unfold onPDMdata. destruct (onPDMdata_read m q); reflexivity. Qed.

(** C1.  Whenever a call of [onPDMdata] completes the write block (its fill
    count reaches [fft_size] after the transfer): if the fill count of the
    other block is not zero, the call resets the fill count of the write block
    to 0 and leaves both write pointers (and the other block's count) as they
    were; if it is zero, both write pointers move to the other block, and the
    completed block keeps the count [fft_size]. *)
Theorem onPDMdata_discards_or_swaps (m : memory) (q : list Z) :
  let wr := write_size m in
  let m1 := fst (onPDMdata_read m q) in
  let m' := fst (onPDMdata m q) in
  size_at m1 wr = fft_size ->
  (size_at m (other wr) <> 0 ->
     size_at m' wr = 0 /\
     write_size m' = wr /\ write_buffer m' = write_buffer m /\
     size_at m' (other wr) = size_at m (other wr) /\
     buffer_at m' Block1 = buffer_at m1 Block1 /\
     buffer_at m' Block2 = buffer_at m1 Block2) /\
  (size_at m (other wr) = 0 ->
     write_size m' = other wr /\ write_buffer m' = other (write_buffer m) /\
     size_at m' wr = fft_size /\ size_at m' (other wr) = 0 /\
     buffer_at m' Block1 = buffer_at m1 Block1 /\
     buffer_at m' Block2 = buffer_at m1 Block2).
Proof.
  intros wr m1 m' Hfull.
  assert (Hw1 : write_size m1 = wr /\ write_buffer m1 = write_buffer m).
  { unfold m1. rewrite onPDMdata_read_eq. cbn [fst]. cbv zeta.
    match goal with |- context [set_size ?a ?b ?c] =>
      destruct (pointers_set_size a b c) as (-> & -> & _) end.
    match goal with |- context [set_buffer ?a ?b ?c] =>
      destruct (pointers_set_buffer a b c) as (-> & -> & _) end.
    split; reflexivity. }
  destruct Hw1 as [Hws Hwb].
  assert (Hoth : size_at m1 (other wr) = size_at m (other wr)).
  { unfold m1. rewrite onPDMdata_read_eq. cbn [fst]. cbv zeta.
    fold wr. rewrite size_at_set_size_other, size_at_set_buffer. reflexivity. }
  assert (Hm' : m' = onPDMdata_handoff m1).
  { unfold m', m1. rewrite onPDMdata_eq. reflexivity. }
  rewrite Hm', onPDMdata_handoff_eq, Hws, Hwb, Hfull, Z.eqb_refl, Hoth.
  split; intros Hother.
  - apply Z.eqb_neq in Hother. rewrite Hother.
    rewrite size_at_set_size_same, size_at_set_size_other, Hoth, !buffer_at_set_size.
    destruct (pointers_set_size m1 wr 0) as (-> & -> & _).
    rewrite Hws, Hwb. repeat split.
  - rewrite Hother. cbn [Z.eqb].
    assert (Hsz : forall p, size_at (set_write m1 (other wr)
                                       (other (write_buffer m))) p
                            = size_at m1 p) by (intros []; reflexivity).
    rewrite !Hsz, Hoth.
    repeat split; assumption.
Qed.

Lemma onPDMdata_discards_or_swaps_witness :
  let m0 := set_size (set_size initial_memory Block1 1022) Block2 1024 in
  size_at (fst (onPDMdata_read m0 [1; 2; 3])) (write_size m0) = fft_size /\
  size_at m0 (other (write_size m0)) <> 0 /\
  size_at (fst (onPDMdata m0 [1; 2; 3])) (write_size m0) = 0 /\
  write_size (fst (onPDMdata m0 [1; 2; 3])) = write_size m0.
Proof.
  intros m0.
  assert (H1 : size_at (fst (onPDMdata_read m0 [1; 2; 3])) (write_size m0)
               = fft_size) by (vm_compute; reflexivity).
  assert (H2 : size_at m0 (other (write_size m0)) <> 0)
    by (vm_compute; discriminate).
  split; [exact H1|]. split; [exact H2|].
  destruct (onPDMdata_discards_or_swaps m0 [1; 2; 3] H1) as [Hd _].
  destruct (Hd H2) as (Hz & Hp & _).
  split; [exact Hz | exact Hp].
Defined.

(** The effect of one call on the fill counts and the pointers. *)
Lemma onPDMdata_effect (m : memory) (q : list Z) :
  let W := write_size m in
  let w := size_at m W in
  let o := size_at m (other W) in
  let n := samples_moved m q in
  let m' := fst (onPDMdata m q) in
  read_size m' = read_size m /\ read_buffer m' = read_buffer m /\
  if w + n =? fft_size then
    if o =? 0 then
      write_size m' = other W /\ write_buffer m' = other (write_buffer m) /\
      size_at m' W = fft_size /\ size_at m' (other W) = 0
    else
      write_size m' = W /\ write_buffer m' = write_buffer m /\
      size_at m' W = 0 /\ size_at m' (other W) = o
  else
    write_size m' = W /\ write_buffer m' = write_buffer m /\
    size_at m' W = w + n /\ size_at m' (other W) = o.
Proof.
  intros W w o n m'.
  set (m1 := fst (onPDMdata_read m q)).
  assert (Hm1 : m1 = set_size
             (set_buffer m (write_buffer m)
                (store_samples (buffer_at m (write_buffer m)) w
                   (firstn (Z.to_nat n) q))) W (w + n)).
  { unfold m1. rewrite onPDMdata_read_eq. reflexivity. }
  assert (Hp : write_size m1 = W /\ write_buffer m1 = write_buffer m /\
               read_size m1 = read_size m /\ read_buffer m1 = read_buffer m).
  { rewrite Hm1.
    match goal with |- context [set_size ?a ?b ?c] =>
      destruct (pointers_set_size a b c) as (-> & -> & -> & ->) end.
    apply pointers_set_buffer. }
  destruct Hp as (Hws & Hwb & Hrs & Hrb).
  assert (Hw : size_at m1 W = w + n)
    by (rewrite Hm1; apply size_at_set_size_same).
  assert (Ho : size_at m1 (other W) = o).
  { rewrite Hm1, size_at_set_size_other, size_at_set_buffer. reflexivity. }
  assert (Hm' : m' = onPDMdata_handoff m1).
  { unfold m', m1. rewrite onPDMdata_eq. reflexivity. }
  rewrite Hm', onPDMdata_handoff_eq, Hws, Hwb, Hw, Ho.
  destruct (w + n =? fft_size) eqn:Hfull.
  - apply Z.eqb_eq in Hfull.
    destruct (o =? 0) eqn:Hother.
    + apply Z.eqb_eq in Hother.
      assert (Hsz : forall p, size_at (set_write m1 (other W)
                                (other (write_buffer m))) p = size_at m1 p)
        by (intros []; reflexivity).
      rewrite !Hsz, Hw, Ho. cbn [read_size read_buffer write_size write_buffer set_write].
      repeat split; try assumption.
    + rewrite size_at_set_size_same, size_at_set_size_other, Ho.
      destruct (pointers_set_size m1 W 0) as (-> & -> & -> & ->).
      repeat split; assumption.
  - repeat split; assumption.
Qed.

(** ** The invariant of the exchange *)

Lemma handoff_inv_initial : handoff_inv initial_system.
Proof.
  unfold handoff_inv, initial_system. cbn.
  repeat split; try reflexivity; try discriminate.
  left. split; reflexivity.
Qed.

Lemma handoff_inv_interrupt pc m q :
  handoff_inv (pc, m) -> handoff_inv (pc, fst (onPDMdata m q)).
Proof.
  unfold handoff_inv. cbn [fst snd]. intros (Hwb & Hw & Hr).
  pose proof (onPDMdata_effect m q) as He. cbv zeta in He.
  destruct He as (Hrs & Hrb & He).
  assert (Hn : 0 <= samples_moved m q <= fft_size - size_at m (write_size m))
    by (unfold samples_moved; lia).
  set (m' := fst (onPDMdata m q)) in *.
  set (W := write_size m) in *.
  destruct (size_at m W + samples_moved m q =? fft_size) eqn:Hfull.
  - destruct (size_at m (other W) =? 0) eqn:Ho.
    + apply Z.eqb_eq in Ho. destruct He as (Hws' & Hwb' & Hsw & Hso).
      rewrite Hws', Hwb', Hwb, Hso.
      split; [reflexivity|]. split; [unfold fft_size; lia|].
      unfold read_phase. rewrite Hws', Hrs, Hrb, other_involutive, Hsw.
      unfold read_phase in Hr. fold W in Hr.
      destruct pc; intuition (try congruence; try lia).
      all: try (exfalso; unfold fft_size in *; lia).
    + apply Z.eqb_neq in Ho. destruct He as (Hws' & Hwb' & Hsw & Hso).
      rewrite Hws', Hwb', Hsw.
      split; [assumption|]. split; [unfold fft_size; lia|].
      unfold read_phase. rewrite Hws', Hrs, Hrb, Hso.
      unfold read_phase in Hr. fold W in Hr.
      destruct pc; intuition (try congruence; try lia).
  - apply Z.eqb_neq in Hfull. destruct He as (Hws' & Hwb' & Hsw & Hso).
    rewrite Hws', Hwb', Hsw.
    split; [assumption|]. split; [lia|].
    unfold read_phase. rewrite Hws', Hrs, Hrb, Hso.
    exact Hr.
Qed.

Lemma handoff_inv_foreground ZeroFFT pc m :
  handoff_inv (pc, m) -> handoff_inv (loop_step ZeroFFT pc m).
Proof.
  unfold handoff_inv. cbn [fst snd]. intros (Hwb & Hw & Hr).
  destruct pc; cbn [loop_step].
  - (* AtPoll *)
    destruct (size_at m (read_size m) =? fft_size) eqn:Hfull; cbn [negb fst snd].
    + apply Z.eqb_eq in Hfull.
      change (write_buffer m = write_size m /\
              0 <= size_at m (write_size m) < fft_size /\
              read_phase AtRemoveDC m).
      split; [assumption|]. split; [assumption|].
      cbn in Hr |- *. destruct Hr as [Hb [[Hs Ho] | [Hs Ho]]].
      * rewrite Hs in Hfull. lia.
      * repeat split; assumption.
    + auto.
  - (* AtRemoveDC *)
    cbn [fst snd].
    match goal with |- context [set_buffer ?a ?b ?c] =>
      destruct (pointers_set_buffer a b c) as (Ha & Hb & Hc & Hd);
      set (m' := set_buffer a b c) in *;
      assert (Hs : forall p, size_at m' p = size_at m p)
        by (intro; apply size_at_set_buffer) end.
    unfold read_phase in *. rewrite Ha, Hb, Hc, Hd, !Hs. repeat split; tauto.
  - (* AtFFT *)
    cbn [fst snd].
    match goal with |- context [set_buffer ?a ?b ?c] =>
      destruct (pointers_set_buffer a b c) as (Ha & Hb & Hc & Hd);
      set (m' := set_buffer a b c) in *;
      assert (Hs : forall p, size_at m' p = size_at m p)
        by (intro; apply size_at_set_buffer) end.
    unfold read_phase in *. rewrite Ha, Hb, Hc, Hd, !Hs. repeat split; tauto.
  - (* AtRender *)
    cbn [fst snd].
    match goal with |- context [set_display ?a ?b ?c] =>
      set (m' := set_display a b c) in *;
      assert (Hs : forall p, size_at m' p = size_at m p)
        by (intros []; reflexivity) end.
    unfold read_phase in *.
    change (write_size m') with (write_size m).
    change (write_buffer m') with (write_buffer m).
    change (read_size m') with (read_size m).
    change (read_buffer m') with (read_buffer m).
    rewrite !Hs. repeat split; tauto.
  - (* AtMarkEmpty *)
    cbn [fst snd].
    destruct (pointers_set_size m (read_size m) 0) as (Ha & Hb & Hc & Hd).
    unfold read_phase in *. destruct Hr as (Hrb & Hrs & Ho).
    rewrite Ha, Hb, Hc, Hd, Hrs.
    rewrite size_at_set_size_same, size_at_set_size_of_other.
    split; [assumption|]. split; [assumption|].
    split; [congruence|]. left. split; reflexivity.
  - (* AtNextSize *)
    cbn [fst snd].
    assert (Hs : forall p, size_at (set_read_size m (other (read_size m))) p
                           = size_at m p) by (intros []; reflexivity).
    unfold read_phase in *. cbn [write_size write_buffer read_size read_buffer
                                 set_read_size]. rewrite !Hs.
    destruct Hr as (Hrb & Hr). split; [assumption|]. split; [assumption|].
    split; [congruence|]. rewrite Hrb. exact Hr.
  - (* AtNextBuffer *)
    cbn [fst snd].
    assert (Hs : forall p, size_at (set_read_buffer m (other (read_buffer m))) p
                           = size_at m p) by (intros []; reflexivity).
    unfold read_phase in *. cbn [write_size write_buffer read_size read_buffer
                                 set_read_buffer]. rewrite !Hs.
    destruct Hr as (Hrs & Hr). split; [assumption|]. split; [assumption|].
    split; [congruence|].
    destruct Hr as [[Hb Ho] | [Hb Ho]]; [left | right].
    + split; [|assumption].
      rewrite Hrs, Hb. apply other_involutive.
    + split; [|assumption]. rewrite Hrs, Hb. reflexivity.
Qed.

Lemma handoff_inv_step ZeroFFT s e :
  handoff_inv s -> handoff_inv (system_step ZeroFFT s e).
Proof.
  destruct s as [pc m]. destruct e as [q |]; cbn [system_step fst snd].
  - apply handoff_inv_interrupt.
  - apply handoff_inv_foreground.
Qed.

Lemma handoff_inv_run ZeroFFT es s :
  handoff_inv s -> handoff_inv (run ZeroFFT es s).
Proof.
  revert s. induction es as [| e es IH]; intros s Hs; [exact Hs|].
  cbn. apply IH. apply handoff_inv_step. exact Hs.
Qed.

Lemma reachable_handoff_inv ZeroFFT s :
  reachable ZeroFFT s -> handoff_inv s.
Proof.
  intros [es <-]. apply handoff_inv_run. exact handoff_inv_initial.
Qed.

(** In every state of the invariant the block that is not the write block
    is either empty or complete. *)
Lemma handoff_inv_other_block pc m :
  handoff_inv (pc, m) ->
  size_at m (other (write_size m)) = 0 \/
  size_at m (other (write_size m)) = fft_size.
Proof.
  unfold handoff_inv. cbn [fst snd]. intros (_ & _ & Hr).
  destruct pc; cbn in Hr; tauto.
Qed.

(** C2.  In every state reached from the initial one by any interleaving of
    calls of [onPDMdata] (each run to completion, as an interrupt handler
    is) and steps of [loop], the two fill counts are not both [fft_size]. *)
Theorem never_both_blocks_full ZeroFFT (s : loop_pc * memory) :
  reachable ZeroFFT s ->
  ~ (buffer1_size (snd s) = fft_size /\ buffer2_size (snd s) = fft_size).
Proof.
  intros Hreach [H1 H2].
  apply reachable_handoff_inv in Hreach.
  destruct Hreach as (_ & Hw & _).
  destruct (write_size (snd s)); cbn in Hw; lia.
Qed.

Lemma never_both_blocks_full_witness :
  let s := run (fun b => b)
             [Interrupt (repeat 7 1024); Interrupt (repeat 8 1000)]
             initial_system in
  reachable (fun b => b) s /\
  ~ (buffer1_size (snd s) = fft_size /\ buffer2_size (snd s) = fft_size).
Proof.
  intros s.
  assert (H : reachable (fun b => b) s) by (eexists; reflexivity).
  split; [exact H|]. exact (never_both_blocks_full (fun b => b) s H).
Defined.

(** ** The blocks keep their size *)






Section BlocksKeepSize.

Variable ZeroFFT : list Z -> list Z.
Hypothesis ZeroFFT_in_place : forall b, length (ZeroFFT b) = length b.




End BlocksKeepSize.

(** ** Filling a block and handing it over *)










(** ** Band aggregation *)

Lemma band_total_slice read_buf count : forall fft_offset total,
  0 <= fft_offset ->
  fft_offset + Z.of_nat count <= Z.of_nat (length read_buf) ->
  band_total read_buf count fft_offset total =
    (fold_left (fun t x => F32.add t (F32.of_Z (bin_energy x)))
       (firstn count (skipn (Z.to_nat fft_offset) read_buf)) total,
     fft_offset + Z.of_nat count).
Proof.
  induction count as [| c IH]; intros off total H0 Hlen.
  - cbn. rewrite Z.add_0_r. reflexivity.
  - cbn [band_total]. rewrite IH by lia.
    assert (Hsplit : skipn (Z.to_nat off) read_buf
                     = nth (Z.to_nat off) read_buf 0
                       :: skipn (Z.to_nat (off + 1)) read_buf).
    { replace (Z.to_nat (off + 1)) with (S (Z.to_nat off)) by lia.
      clear IH. assert (Hlt : (Z.to_nat off < length read_buf)%nat) by lia.
      revert Hlt. generalize (Z.to_nat off) as k. clear.
      induction read_buf as [| x xs IHl]; intros k Hk; [cbn in Hk; lia|].
      destruct k as [| k]; [reflexivity|].
      cbn [skipn nth]. apply IHl. cbn in Hk. lia. }
    rewrite Hsplit. cbn [firstn fold_left]. f_equal. lia.
Qed.

Lemma sum_Z_cons c counts : sum_Z (c :: counts) = c + sum_Z counts.
Proof. reflexivity. Qed.

Lemma sum_Z_nonneg counts :
  Forall (fun c => 0 <= c) counts -> 0 <= sum_Z counts.
Proof.
  induction 1 as [| c cs Hc _ IH]; [cbn; lia | rewrite sum_Z_cons; lia].
Qed.

Lemma render_bands_levels read_buf : forall counts gains fft_offset,
  length gains = length counts ->
  Forall (fun c => 0 <= c) counts ->
  0 <= fft_offset ->
  fft_offset + sum_Z counts <= Z.of_nat (length read_buf) ->
  map band_level (render_bands read_buf counts gains fft_offset)
    = map (slice_level read_buf) (band_slices counts fft_offset).
Proof.
  induction counts as [| c counts IH]; intros gains off Hg Hpos H0 Hlen.
  - reflexivity.
  - destruct gains as [| g gains]; [discriminate|].
    inversion Hpos as [| ? ? Hc Hpos']; subst.
    pose proof (sum_Z_nonneg counts Hpos') as Hs.
    rewrite sum_Z_cons in Hlen.
    cbn [render_bands band_slices map]. unfold render_band.
    rewrite band_total_slice by lia.
    cbn [map band_level]. rewrite Z2Nat.id by lia.
    f_equal. apply IH; [cbn in Hg; lia | assumption | lia | lia].
Qed.

Lemma band_slices_length counts first :
  length (band_slices counts first) = length counts.
Proof.
  revert first. induction counts as [| c cs IH]; intros first; cbn;
    [reflexivity | rewrite IH; reflexivity].
Qed.

Lemma band_slices_nth counts : forall first i,
  (i < length counts)%nat ->
  nth i (band_slices counts first) (0, 0)
    = (first + sum_Z (firstn i counts), nth i counts 0).
Proof.
  induction counts as [| c cs IH]; intros first i Hi; [cbn in Hi; lia|].
  destruct i as [| i]; cbn [band_slices nth firstn].
  - cbn. rewrite Z.add_0_r. reflexivity.
  - rewrite IH by (cbn in Hi; lia). rewrite sum_Z_cons.
    f_equal. lia.
Qed.

Lemma sum_Z_firstn_succ counts i :
  (i < length counts)%nat ->
  sum_Z (firstn (S i) counts) = sum_Z (firstn i counts) + nth i counts 0.
Proof.
  revert i. induction counts as [| c cs IH]; intros i Hi; [cbn in Hi; lia|].
  destruct i as [| i].
  - cbn. lia.
  - change (firstn (S (S i)) (c :: cs)) with (c :: firstn (S i) cs).
    change (firstn (S i) (c :: cs)) with (c :: firstn i cs).
    rewrite !sum_Z_cons. cbn [nth]. rewrite IH by (cbn in Hi; lia). lia.
Qed.

Lemma sum_Z_firstn_mono counts i j :
  Forall (fun c => 0 <= c) counts -> (i <= j)%nat ->
  sum_Z (firstn i counts) <= sum_Z (firstn j counts).
Proof.
  intros Hpos. revert i j.
  induction Hpos as [| c cs Hc Hpos IH]; intros i j Hij.
  - rewrite !firstn_nil. lia.
  - destruct i as [| i]; destruct j as [| j]; try lia.
    + cbn [firstn]. rewrite sum_Z_cons.
      specialize (IH 0%nat j ltac:(lia)). cbn [firstn] in IH.
      change (sum_Z []) with 0 in *. lia.
    + cbn [firstn]. rewrite !sum_Z_cons.
      specialize (IH i j ltac:(lia)). lia.
Qed.

(** The slices are contiguous: every band starts where the one before it
    ends, and so two different bands never share a bin. *)
Lemma band_slices_contiguous counts first i :
  (S i < length counts)%nat ->
  fst (nth (S i) (band_slices counts first) (0, 0))
    = fst (nth i (band_slices counts first) (0, 0))
      + snd (nth i (band_slices counts first) (0, 0)).
Proof.
  intros Hi. rewrite !band_slices_nth by lia. cbn [fst snd].
  rewrite sum_Z_firstn_succ by lia. lia.
Qed.

Lemma band_slices_ordered counts first i j :
  Forall (fun c => 0 <= c) counts ->
  (i < j)%nat -> (j < length counts)%nat ->
  fst (nth i (band_slices counts first) (0, 0))
    + snd (nth i (band_slices counts first) (0, 0))
  <= fst (nth j (band_slices counts first) (0, 0)).
Proof.
  intros Hpos Hij Hj. rewrite !band_slices_nth by lia. cbn [fst snd].
  pose proof (sum_Z_firstn_succ counts i ltac:(lia)).
  pose proof (sum_Z_firstn_mono counts (S i) j Hpos ltac:(lia)). lia.
Qed.

Lemma frequency_bins_count_positive :
  Forall (fun c => 0 <= c) frequency_bins_count.
Proof. unfold frequency_bins_count. repeat constructor; discriminate. Qed.

(** C4, as the claim states it, fails: the bin counts of the 60 bands add up
    to 455, not to [fft_size / 2 - 1 = 511]. *)
Lemma bins_count_sum_is_not_511 :
  sum_Z frequency_bins_count <> fft_size / 2 - 1.
Proof. vm_compute. discriminate. Qed.

(** C4, amended.  The bin counts of the 60 bands add up to 455, which is less
    than [fft_size / 2 - 1 = 511]: the bins 456 to 511 belong to no band.  On
    every block the level the loop computes for band [i] is the energy of the
    [i]-th slice of the walk that starts at bin 1 and gives every band as many
    consecutive bins as its count says; each slice starts where the one before
    it ends, so the slices are contiguous, in band order and pairwise
    disjoint, and together they are the bins 1 to 455. *)
Theorem band_aggregation_slices (read_buf : list Z) (gains : list float) :
  Z.of_nat (length read_buf) = fft_size ->
  Z.of_nat (length gains) = NUMPIXELS ->
  let slices := band_slices frequency_bins_count 1 in
  let first i := fst (nth i slices (0, 0)) in
  let span i := snd (nth i slices (0, 0)) in
  sum_Z frequency_bins_count = 455 /\
  455 < fft_size / 2 - 1 /\
  Z.of_nat (length frequency_bins_count) = NUMPIXELS /\
  map band_level (render_bands read_buf frequency_bins_count gains 1)
    = map (slice_level read_buf) slices /\
  first 0%nat = 1 /\
  (forall i, (i < 60)%nat -> span i = nth i frequency_bins_count 0) /\
  (forall i, (S i < 60)%nat -> first (S i) = first i + span i) /\
  (forall i j, (i < j)%nat -> (j < 60)%nat -> first i + span i <= first j) /\
  first 59%nat + span 59%nat = 456.
Proof.
  intros Hbuf Hgains slices first span.
  assert (Hlen : length frequency_bins_count = 60%nat) by reflexivity.
  split; [reflexivity|]. split; [reflexivity|]. split; [reflexivity|].
  split.
  { apply render_bands_levels.
    - rewrite Hlen. unfold NUMPIXELS in Hgains. lia.
    - exact frequency_bins_count_positive.
    - lia.
    - change (sum_Z frequency_bins_count) with 455. rewrite Hbuf.
      unfold fft_size. lia. }
  split; [reflexivity|].
  split.
  { intros i Hi. unfold span, slices.
    rewrite band_slices_nth by (rewrite Hlen; exact Hi). reflexivity. }
  split.
  { intros i Hi. unfold first, span, slices.
    apply band_slices_contiguous. rewrite Hlen. exact Hi. }
  split.
  { intros i j Hij Hj. unfold first, span, slices.
    apply band_slices_ordered;
      [exact frequency_bins_count_positive | exact Hij | rewrite Hlen; exact Hj]. }
  reflexivity.
Qed.

Lemma band_aggregation_slices_witness :
  let read_buf := repeat 16 1024%nat in
  let gains := repeat min_auto_gain 60%nat in
  Z.of_nat (length read_buf) = fft_size /\
  Z.of_nat (length gains) = NUMPIXELS /\
  map band_level (render_bands read_buf frequency_bins_count gains 1)
    = map (slice_level read_buf) (band_slices frequency_bins_count 1).
Proof.
  intros read_buf gains.
  assert (H1 : Z.of_nat (length read_buf) = fft_size) by reflexivity.
  assert (H2 : Z.of_nat (length gains) = NUMPIXELS) by reflexivity.
  split; [exact H1|]. split; [exact H2|].
  exact (proj1 (proj2 (proj2 (proj2
           (band_aggregation_slices read_buf gains H1 H2))))).
Defined.

(** ** DC-bias removal *)

Lemma to_int32_small z :
  -2147483648 <= z <= 2147483647 -> to_int32 z = z.
Proof. intros H. unfold to_int32. rewrite Z.mod_small; lia. Qed.

Lemma to_short_small z : is_short z -> to_short z = z.
Proof. unfold is_short, to_short. intros H. rewrite Z.mod_small; lia. Qed.

Lemma sum_Z_short_bounds data :
  Forall is_short data ->
  - 32768 * Z.of_nat (length data) <= sum_Z data <= 32767 * Z.of_nat (length data).
Proof.
  induction 1 as [| d ds Hd _ IH]; [cbn; lia|].
  rewrite sum_Z_cons. cbn [length]. unfold is_short in Hd. lia.
Qed.

(** The 32-bit accumulator holds the exact sum of any block of at most
    65535 samples: it never wraps. *)
Lemma accumulator_exact data : forall acc,
  Forall is_short data ->
  -2147483648 <= acc - 32768 * Z.of_nat (length data) ->
  acc + 32767 * Z.of_nat (length data) <= 2147483647 ->
  fold_left (fun a d => to_int32 (a + d)) data acc = acc + sum_Z data.
Proof.
  induction data as [| d ds IH]; intros acc Hs Hlo Hhi.
  - cbn. lia.
  - inversion Hs as [| ? ? Hd Hds]; subst. unfold is_short in Hd.
    cbn [length] in Hlo, Hhi. cbn [fold_left]. rewrite sum_Z_cons.
    rewrite to_int32_small by lia. rewrite IH by (try assumption; lia). lia.
Qed.

Lemma sum_Z_app l1 l2 : sum_Z (l1 ++ l2) = sum_Z l1 + sum_Z l2.
Proof.
  induction l1 as [| x l1 IH]; [reflexivity|].
  cbn [app]. rewrite !sum_Z_cons, IH. lia.
Qed.

Lemma sum_Z_map_sub data a :
  sum_Z (map (fun d => d - a) data) = sum_Z data - a * Z.of_nat (length data).
Proof.
  induction data as [| d ds IH]; [cbn; lia|].
  cbn [map length]. rewrite !sum_Z_cons, IH. lia.
Qed.

(** On a complete block, [RemoveDCBias] computes the truncated mean without
    overflow of the accumulator.  Where no difference [data[i] - avg] leaves
    the [short] range, the block it leaves has the sum
    [sum rem fft_size], whose magnitude is below [fft_size]: the mean of the
    result is below 1 in magnitude and truncates to 0. *)
Lemma RemoveDCBias_mean_without_wrap data :
  Z.of_nat (length data) = fft_size ->
  Forall is_short data ->
  Forall (fun d => is_short (d - block_mean data)) data ->
  fold_left (fun a d => to_int32 (a + d)) data 0 = sum_Z data /\
  RemoveDCBias data = map (fun d => d - block_mean data) data /\
  sum_Z (RemoveDCBias data) = Z.rem (sum_Z data) fft_size /\
  - fft_size < sum_Z (RemoveDCBias data) < fft_size /\
  block_mean (RemoveDCBias data) = 0.
Proof.
  intros Hlen Hs Hnw.
  pose proof (sum_Z_short_bounds data Hs) as Hb. rewrite Hlen in Hb.
  unfold fft_size in Hb, Hlen.
  assert (Hacc : fold_left (fun a d => to_int32 (a + d)) data 0 = sum_Z data).
  { rewrite accumulator_exact by (try assumption; lia). lia. }
  assert (Hq : -32768 <= Z.quot (sum_Z data) 1024 <= 32767).
  { split.
    - apply Z.quot_le_lower_bound; lia.
    - apply Z.quot_le_upper_bound; lia. }
  assert (Heq : RemoveDCBias data = map (fun d => d - block_mean data) data).
  { unfold RemoveDCBias, block_mean, fft_size.
    replace (Z.to_nat 1024) with (length data) by lia.
    rewrite firstn_all, skipn_all, app_nil_r, Hacc.
    rewrite to_int32_small by lia.
    apply map_ext_in. intros d Hd.
    apply to_short_small.
    rewrite Forall_forall in Hnw. apply (Hnw d Hd). }
  assert (Hsum : sum_Z (RemoveDCBias data) = Z.rem (sum_Z data) fft_size).
  { rewrite Heq, sum_Z_map_sub. unfold block_mean, fft_size. rewrite Hlen.
    pose proof (Z.quot_rem' (sum_Z data) 1024). lia. }
  assert (Hrem : - fft_size < sum_Z (RemoveDCBias data) < fft_size).
  { rewrite Hsum. unfold fft_size.
    pose proof (Z.rem_bound_abs (sum_Z data) 1024 ltac:(lia)). lia. }
  repeat split; try assumption; try lia.
  unfold block_mean. apply Z.quot_small_iff; [unfold fft_size; lia|].
  unfold fft_size in *. lia.
Qed.

(** C5.  The claim fails on the code at [extreme_block], a complete block of
    [short] samples (768 at 32767, 256 at -32768).  The accumulator holds the
    exact sum 16776448 and the mean is 16383; the differences
    [-32768 - 16383] do not fit a [short] and wrap to 16385, so that the mean
    of the block [RemoveDCBias] leaves is 16384 and not below 1. *)
Theorem RemoveDCBias_wraps_on_extreme_block :
  Z.of_nat (length extreme_block) = fft_size /\
  forallb is_shortb extreme_block = true /\
  fold_left (fun a d => to_int32 (a + d)) extreme_block 0
    = sum_Z extreme_block /\
  block_mean extreme_block = 16383 /\
  nth 800 extreme_block 0 = -32768 /\
  nth 800 (RemoveDCBias extreme_block) 0 = 16385 /\
  block_mean (RemoveDCBias extreme_block) = 16384.
Proof. vm_compute. repeat split; reflexivity. Qed.

(** ** Single-precision comparisons *)

Lemma ltb_compare x y : F32.ltb x y = true <-> SFcompare x y = Some Lt.
Proof.
  unfold F32.ltb, SFltb. destruct (SFcompare x y) as [[]|]; split; congruence.
Qed.

Lemma leb_compare x y :
  F32.leb x y = true <-> SFcompare x y = Some Lt \/ SFcompare x y = Some Eq.
Proof.
  unfold F32.leb, SFleb.
  destruct (SFcompare x y) as [[]|]; split; intuition congruence.
Qed.

Ltac compare_cases :=
  repeat match goal with
  | H : context [Z.compare ?a ?b] |- _ => destruct (Z.compare_spec a b)
  | |- context [Z.compare ?a ?b] => destruct (Z.compare_spec a b)
  | H : context [Pos.compare_cont Eq ?a ?b] |- _ =>
      change (Pos.compare_cont Eq a b) with (Pos.compare a b) in H;
      destruct (Pos.compare_spec a b)
  | |- context [Pos.compare_cont Eq ?a ?b] =>
      change (Pos.compare_cont Eq a b) with (Pos.compare a b);
      destruct (Pos.compare_spec a b)
  end.

Ltac compare_trans :=
  let x := fresh "x" in let y := fresh "y" in let z := fresh "z" in
  intros x y z;
  destruct x as [? | ? | | ? ? ?], y as [? | ? | | ? ? ?],
           z as [? | ? | | ? ? ?]; cbn;
  try discriminate; try reflexivity;
  repeat match goal with s : bool |- _ => destruct s end; cbn;
  try discriminate; try reflexivity;
  compare_cases; cbn; intros; subst;
  try discriminate; try reflexivity; try lia.

Lemma compare_lt_trans : forall x y z,
  SFcompare x y = Some Lt -> SFcompare y z = Some Lt -> SFcompare x z = Some Lt.
Proof. compare_trans. Qed.

Lemma compare_eq_lt_trans : forall x y z,
  SFcompare x y = Some Eq -> SFcompare y z = Some Lt -> SFcompare x z = Some Lt.
Proof. compare_trans. Qed.

Lemma leb_ltb_trans x y z :
  F32.leb x y = true -> F32.ltb y z = true -> F32.ltb x z = true.
Proof.
  rewrite leb_compare, !ltb_compare. intros [H | H] Hyz.
  - exact (compare_lt_trans x y z H Hyz).
  - exact (compare_eq_lt_trans x y z H Hyz).
Qed.

Lemma ltb_leb x y : F32.ltb x y = true -> F32.leb x y = true.
Proof. rewrite ltb_compare, leb_compare. auto. Qed.

Lemma compare_antisym x y :
  SFcompare y x = option_map CompOpp (SFcompare x y).
Proof.
  destruct x as [? | ? | | ? ? ?], y as [? | ? | | ? ? ?]; cbn;
    try reflexivity;
    repeat match goal with s : bool |- _ => destruct s end; cbn;
    try reflexivity.
  all: change (Pos.compare_cont Eq m0 m) with (Pos.compare m0 m);
    change (Pos.compare_cont Eq m m0) with (Pos.compare m m0);
    rewrite (Z.compare_antisym e e0), (Pos.compare_antisym m m0);
    destruct (e ?= e0); cbn; try reflexivity;
    destruct (m ?= m0)%positive; reflexivity.
Qed.

Lemma ltb_irrefl_of_leb x y : F32.leb x y = true -> F32.ltb y x = false.
Proof.
  rewrite leb_compare. unfold F32.ltb, SFltb. rewrite (compare_antisym x y).
  intros [-> | ->]; reflexivity.
Qed.

(** ** Automatic gain *)

Lemma max_min_auto_gain x :
  F32.leb min_auto_gain (F32.max min_auto_gain x) = true.
Proof.
  unfold F32.max. destruct (F32.ltb min_auto_gain x) eqn:H.
  - apply ltb_leb. exact H.
  - reflexivity.
Qed.

(** One update keeps the level at or above [min_auto_gain], whatever the raw
    energy of the frame. *)
Lemma update_auto_gain_floor level g :
  F32.leb min_auto_gain g = true ->
  F32.leb min_auto_gain (update_auto_gain level g) = true.
Proof.
  intros Hg. unfold update_auto_gain.
  destruct (F32.ltb g level) eqn:Hraise.
  - apply ltb_leb. exact (leb_ltb_trans _ _ _ Hg Hraise).
  - apply max_min_auto_gain.
Qed.

Lemma gain_after_floor levels : forall g,
  F32.leb min_auto_gain g = true ->
  F32.leb min_auto_gain (gain_after levels g) = true.
Proof.
  induction levels as [| l ls IH]; intros g Hg; [exact Hg|].
  cbn. apply IH. apply update_auto_gain_floor. exact Hg.
Qed.

Lemma gain_after_snoc levels level g :
  gain_after (levels ++ [level]) g = update_auto_gain level (gain_after levels g).
Proof. unfold gain_after. rewrite fold_left_app. reflexivity. Qed.

Lemma last_default_irrelevant (A : Type) (l : list A) (x a b : A) :
  last (x :: l) a = last (x :: l) b.
Proof.
  revert x. induction l as [| y l IH]; intros x; [reflexivity|].
  change (last (y :: l) a = last (y :: l) b). apply IH.
Qed.

(** With a rising sequence of raw energies that starts above the level, the
    level after the last frame is the raw energy of that frame. *)
Lemma gain_after_rising levels : forall g,
  rising_from g levels -> gain_after levels g = last levels g.
Proof.
  induction levels as [| l ls IH]; intros g Hr; [reflexivity|].
  destruct Hr as [Hgl Hr].
  change (gain_after (l :: ls) g) with (gain_after ls (update_auto_gain l g)).
  unfold update_auto_gain. rewrite Hgl, (IH l Hr).
  destruct ls as [| l' ls']; [reflexivity|].
  change (last (l :: l' :: ls') g) with (last (l' :: ls') g).
  apply last_default_irrelevant.
Qed.

Lemma rising_from_firstn levels : forall g k,
  rising_from g levels -> rising_from g (firstn k levels).
Proof.
  induction levels as [| l ls IH]; intros g k Hr.
  - rewrite firstn_nil. exact I.
  - destruct k as [| k]; [exact I|].
    destruct Hr as [Hgl Hr]. cbn [firstn rising_from].
    split; [exact Hgl | apply IH; exact Hr].
Qed.

Lemma last_firstn_succ (levels : list float) : forall k g,
  (k < length levels)%nat ->
  last (firstn (S k) levels) g = nth k levels g.
Proof.
  induction levels as [| l ls IH]; intros k g Hk; [cbn in Hk; lia|].
  destruct k as [| k]; [reflexivity|].
  cbn [length] in Hk.
  change (firstn (S (S k)) (l :: ls)) with (l :: firstn (S k) ls).
  destruct ls as [| l' ls']; [cbn in Hk; lia|].
  change (firstn (S k) (l' :: ls')) with (l' :: firstn k ls').
  change (last (l :: l' :: firstn k ls') g) with (last (l' :: firstn k ls') g).
  change (l' :: firstn k ls') with (firstn (S k) (l' :: ls')).
  rewrite IH by lia. reflexivity.
Qed.

Lemma min_auto_gain_positive g :
  F32.leb min_auto_gain g = true -> F32.ltb g F32.zero = false.
Proof.
  intros Hg. destruct (F32.ltb g F32.zero) eqn:Hneg; [|reflexivity].
  assert (Hz : F32.ltb F32.zero min_auto_gain = true) by reflexivity.
  rewrite ltb_compare in Hneg, Hz.
  pose proof (compare_lt_trans _ _ _ Hneg Hz) as Hlt.
  apply ltb_compare in Hlt.
  rewrite (ltb_irrefl_of_leb _ _ Hg) in Hlt. discriminate.
Qed.

Lemma decay_once_floor g : F32.leb min_auto_gain (decay_once g) = true.
Proof. apply max_min_auto_gain. Qed.

Lemma gain_after_silence n : forall g,
  F32.leb min_auto_gain g = true ->
  gain_after (repeat F32.zero n) g = Nat.iter n decay_once g.
Proof.
  induction n as [| n IH]; intros g Hg; [reflexivity|].
  rewrite Nat.iter_succ_r. cbn [repeat].
  change (gain_after (F32.zero :: repeat F32.zero n) g)
    with (gain_after (repeat F32.zero n) (update_auto_gain F32.zero g)).
  unfold update_auto_gain. rewrite (min_auto_gain_positive g Hg).
  fold (decay_once g). apply IH. apply decay_once_floor.
Qed.

Lemma iter_decay_floor n g :
  F32.leb min_auto_gain g = true ->
  F32.leb min_auto_gain (Nat.iter n decay_once g) = true.
Proof.
  intros Hg. destruct n as [| n]; [exact Hg|].
  cbn [Nat.iter nat_rect]. apply decay_once_floor.
Qed.

Lemma iter_decay_at_floor n : Nat.iter n decay_once min_auto_gain = min_auto_gain.
Proof.
  induction n as [| n IH]; [reflexivity|].
  cbn [Nat.iter nat_rect]. fold (Nat.iter n decay_once min_auto_gain).
  rewrite IH. reflexivity.
Qed.

(** ** Normalised output *)

(** A finite nonzero [float] divided by itself is exactly 1. *)
Lemma div_self s m e :
  F32.div (S754_finite s m e) (S754_finite s m e) = F32.one.
Proof.
  unfold F32.div, SFdiv, SFdiv_core_binary.
  replace (Zdigits2 (Z.pos m) + e - (Zdigits2 (Z.pos m) + e)) with 0 by lia.
  rewrite Z.sub_diag.
  change (Z.min (fexp F32.prec F32.emax 0) 0) with (-24).
  change (0 - -24) with 24.
  cbv iota beta.
  rewrite Z.shiftl_mul_pow2 by lia.
  assert (Hd : Z.div_eucl (Z.pos m * 2 ^ 24) (Z.pos m) = (2 ^ 24, 0)).
  { pose proof (Z.div_eucl_eq (Z.pos m * 2 ^ 24) (Z.pos m) ltac:(lia)) as H.
    pose proof (Z.mod_pos_bound (Z.pos m * 2 ^ 24) (Z.pos m) ltac:(lia)) as Hb.
    unfold Z.modulo in Hb.
    destruct (Z.div_eucl (Z.pos m * 2 ^ 24) (Z.pos m)) as [q r].
    assert (q = 2 ^ 24) by nia. subst q. f_equal. lia. }
  rewrite Hd.
  assert (Hl : new_location (Z.pos m) 0 = loc_Exact).
  { unfold new_location. destruct (Z.even (Z.pos m)); reflexivity. }
  rewrite Hl. destruct s; reflexivity.
Qed.

(** C7, as the claim states it, fails on the second frame: the level of
    band 0 does not stay 10. *)
Lemma tone_second_frame_gain_is_not_10 :
  band_auto_gain (nth 0 tone_frame1 no_band) = F32.of_Z 10 /\
  band_auto_gain (nth 0 tone_frame2 no_band) <> F32.of_Z 10.
Proof. vm_compute. split; [reflexivity | discriminate]. Qed.

(** C7, amended.  Band 0 has one bin, bin 1.  With [raw_min_value + 10] in
    that bin: on the first frame the raw energy is exactly 10, the level
    becomes 10 and the normalised output is exactly 1.0 (green 250).  On the
    second frame the raw energy is 10 again; [10 > 10] is false, so the decay
    branch runs and the level becomes [10 * 0.997f], that is
    [10454302 * 2^-20] (about 9.97); the normalised output is
    [10 / (10 * 0.997f)], that is [8413850 * 2^-23] (about 1.003), above 1;
    the green component is 250 again. *)
Theorem tone_two_frames :
  nth 0 frequency_bins_count 0 = 1 /\
  nth 1 tone_spectrum 0 = raw_min_value + 10 /\
  band_level (nth 0 tone_frame1 no_band) = F32.of_Z 10 /\
  band_auto_gain (nth 0 tone_frame1 no_band) = F32.of_Z 10 /\
  band_gain_level (nth 0 tone_frame1 no_band) = F32.one /\
  band_green (nth 0 tone_frame1 no_band) = Some 250 /\
  band_level (nth 0 tone_frame2 no_band) = F32.of_Z 10 /\
  F32.ltb (F32.of_Z 10) (F32.of_Z 10) = false /\
  band_auto_gain (nth 0 tone_frame2 no_band)
    = F32.mul (F32.of_Z 10) decay_factor /\
  band_auto_gain (nth 0 tone_frame2 no_band)
    = S754_finite false 10454302 (-20) /\
  band_gain_level (nth 0 tone_frame2 no_band)
    = S754_finite false 8413850 (-23) /\
  F32.ltb F32.one (band_gain_level (nth 0 tone_frame2 no_band)) = true /\
  band_green (nth 0 tone_frame2 no_band) = Some 250.
Proof. vm_compute. repeat split; reflexivity. Qed.

(** ** Rounding to single precision *)

Lemma digits2_pos_size (p : positive) : digits2_pos p = Pos.size p.
Proof. induction p as [p IH | p IH |]; cbn; rewrite ?IH; reflexivity. Qed.

Lemma Zdigits2_bounds (p : positive) :
  2 ^ (Zdigits2 (Zpos p) - 1) <= Zpos p < 2 ^ Zdigits2 (Zpos p).
Proof.
  cbn [Zdigits2]. rewrite digits2_pos_size.
  pose proof (Pos.size_gt p) as Hgt. pose proof (Pos.size_le p) as Hle.
  assert (Hpow : Zpos (2 ^ Pos.size p) = 2 ^ Zpos (Pos.size p))
    by (rewrite Pos2Z.inj_pow; reflexivity).
  split.
  - assert (H2 : 2 ^ Zpos (Pos.size p) = 2 * 2 ^ (Zpos (Pos.size p) - 1)).
    { rewrite <- Z.pow_succ_r by lia. f_equal. lia. }
    assert (Zpos (2 ^ Pos.size p) <= Zpos p~0) by exact Hle.
    rewrite Hpow, H2 in H. lia.
  - rewrite <- Hpow. exact Hgt.
Qed.

Lemma Zdigits2_unique (p : positive) (d : Z) :
  2 ^ (d - 1) <= Zpos p < 2 ^ d -> Zdigits2 (Zpos p) = d.
Proof.
  intros [Hlo Hhi]. pose proof (Zdigits2_bounds p) as [Blo Bhi].
  assert (Hd : 0 < Zdigits2 (Zpos p)) by (cbn; lia).
  destruct (Z.lt_trichotomy (Zdigits2 (Zpos p)) d) as [Hlt | [Heq | Hgt]];
    [exfalso | exact Heq | exfalso].
  - assert (2 ^ Zdigits2 (Zpos p) <= 2 ^ (d - 1))
      by (apply Z.pow_le_mono_r; lia). lia.
  - assert (0 <= d \/ d < 0) as [Hd0 | Hd0] by lia.
    + assert (2 ^ d <= 2 ^ (Zdigits2 (Zpos p) - 1))
        by (apply Z.pow_le_mono_r; lia). lia.
    + rewrite (Z.pow_neg_r 2 d) in Hhi by lia. lia.
Qed.

Lemma iter_pos_nat (A : Type) (f : A -> A) (p : positive) (x : A) :
  iter_pos f p x = Nat.iter (Pos.to_nat p) f x.
Proof.
  revert x. induction p as [p IH | p IH |]; intros x; cbn [iter_pos].
  - rewrite !IH, Pos2Nat.inj_xI.
    replace (S (2 * Pos.to_nat p)) with (Pos.to_nat p + (Pos.to_nat p + 1))%nat by lia.
    rewrite !Nat.iter_add. reflexivity.
  - rewrite !IH, Pos2Nat.inj_xO.
    replace (2 * Pos.to_nat p)%nat with (Pos.to_nat p + Pos.to_nat p)%nat by lia.
    rewrite Nat.iter_add. reflexivity.
  - reflexivity.
Qed.

Lemma shr_1_mantissa mrs : 0 <= shr_m mrs -> shr_m (shr_1 mrs) = shr_m mrs / 2.
Proof.
  destruct mrs as [m r s]. cbn [shr_m shr_1]. intros Hm.
  destruct m as [| p | p]; [reflexivity | | lia].
  destruct p as [p | p |]; cbn [shr_m].
  - rewrite Pos2Z.inj_xI. rewrite Z.mul_comm, Z.div_add_l by lia.
    change (1 / 2) with 0. lia.
  - rewrite Pos2Z.inj_xO. rewrite Z.mul_comm, Z.div_mul by lia. reflexivity.
  - reflexivity.
Qed.

Lemma shr_iter_mantissa (n : nat) mrs :
  0 <= shr_m mrs ->
  shr_m (Nat.iter n shr_1 mrs) = shr_m mrs / 2 ^ Z.of_nat n.
Proof.
  intros Hm. induction n as [| n IH].
  - cbn. rewrite Z.div_1_r. reflexivity.
  - cbn [Nat.iter nat_rect]. fold (Nat.iter n shr_1 mrs).
    rewrite shr_1_mantissa.
    + rewrite IH, Nat2Z.inj_succ, Z.pow_succ_r by lia.
      rewrite Z.div_div by lia. f_equal. lia.
    + rewrite IH. apply Z.div_pos; lia.
Qed.

(** A right shift by [n] places divides the mantissa by [2^n]. *)
Lemma shr_mantissa mrs e n :
  0 <= shr_m mrs -> 0 <= n ->
  shr_m (fst (shr mrs e n)) = shr_m mrs / 2 ^ n /\ snd (shr mrs e n) = e + n.
Proof.
  intros Hm Hn. unfold shr. destruct n as [| p | p]; [| | lia].
  - cbn. rewrite Z.div_1_r, Z.add_0_r. auto.
  - cbn [fst snd]. rewrite iter_pos_nat, shr_iter_mantissa by exact Hm.
    rewrite positive_nat_Z. auto.
Qed.

Lemma round_nearest_even_cases m l :
  round_nearest_even m l = m \/ round_nearest_even m l = m + 1.
Proof.
  unfold round_nearest_even. destruct l as [| []]; auto.
  destruct (Z.even m); auto.
Qed.

Lemma shr_record_of_loc_mantissa m l : shr_m (shr_record_of_loc m l) = m.
Proof. destruct l as [| []]; reflexivity. Qed.

Lemma fexp_normal e : -149 <= e - 24 -> fexp 24 128 e = e - 24.
Proof. intros H. unfold fexp, emin. lia. Qed.

Lemma div_pow2_window m n :
  0 <= n -> 2 ^ 23 * 2 ^ n <= m < 2 ^ 24 * 2 ^ n ->
  2 ^ 23 <= m / 2 ^ n < 2 ^ 24.
Proof.
  intros Hn [Hlo Hhi].
  assert (Hp : 0 < 2 ^ n) by (apply Z.pow_pos_nonneg; lia).
  split.
  - apply Z.div_le_lower_bound; lia.
  - apply Z.div_lt_upper_bound; lia.
Qed.

(** The result of rounding a mantissa of [d >= 24] digits, away from the
    subnormal range and from overflow: the mantissa is cut to 24 digits and
    stays or moves up by one unit in the last place. *)
Lemma binary_round_aux_normal (s : bool) (mx : positive) (ex : Z)
    (lx : location) (d : Z) :
  Zdigits2 (Zpos mx) = d -> 24 <= d ->
  -149 <= ex + d - 24 -> ex + d - 24 < 104 ->
  exists m2 e2,
    binary_round_aux 24 128 s (Zpos mx) ex lx = S754_finite s m2 e2 /\
    2 ^ 23 <= Zpos m2 < 2 ^ 24 /\
    ((e2 = ex + d - 24 /\
      (Zpos m2 = Zpos mx / 2 ^ (d - 24) \/
       Zpos m2 = Zpos mx / 2 ^ (d - 24) + 1)) \/
     (e2 = ex + d - 24 + 1 /\ Zpos mx / 2 ^ (d - 24) + 1 = 2 ^ 24 /\
      Zpos m2 = 2 ^ 23)).
Proof.
  intros Hd Hd24 Hlo Hhi.
  pose proof (Zdigits2_bounds mx) as Hb. rewrite Hd in Hb.
  set (n := d - 24).
  set (m1 := Zpos mx / 2 ^ n).
  assert (Hm1 : 2 ^ 23 <= m1 < 2 ^ 24).
  { apply div_pow2_window; [unfold n; lia|].
    rewrite <- !Z.pow_add_r by (unfold n; lia).
    replace (23 + n) with (d - 1) by (unfold n; lia).
    replace (24 + n) with d by (unfold n; lia). exact Hb. }
  unfold binary_round_aux, shr_fexp.
  rewrite Hd, fexp_normal by lia.
  replace (d + ex - 24 - ex) with n by (unfold n; lia).
  destruct (shr_mantissa (shr_record_of_loc (Zpos mx) lx) ex n) as [Hsm Hse];
    [rewrite shr_record_of_loc_mantissa; lia | unfold n; lia |].
  rewrite shr_record_of_loc_mantissa in Hsm. fold m1 in Hsm.
  destruct (shr (shr_record_of_loc (Zpos mx) lx) ex n) as [mrs' e'].
  cbn [fst snd] in Hsm, Hse. subst e'. rewrite Hsm.
  set (m1' := round_nearest_even m1 (loc_of_shr_record mrs')).
  assert (Hm1' : m1' = m1 \/ m1' = m1 + 1) by apply round_nearest_even_cases.
  assert (Hcases : m1' < 2 ^ 24 \/ m1' = 2 ^ 24) by lia.
  destruct Hcases as [Hsmall | Hcarry].
  - assert (Hpos : exists p, m1' = Zpos p).
    { destruct m1' as [| p | p]; [lia | eauto | lia]. }
    destruct Hpos as [p Hp]. rewrite Hp.
    assert (Hdp : Zdigits2 (Zpos p) = 24)
      by (apply Zdigits2_unique; change (24 - 1) with 23; lia).
    rewrite Hdp, fexp_normal by lia.
    replace (24 + (ex + n) - 24 - (ex + n)) with 0 by lia.
    cbn [shr shr_record_of_loc shr_m].
    replace (ex + n <=? 128 - 24) with true
      by (symmetry; apply Z.leb_le; unfold n; lia).
    exists p, (ex + n). split; [reflexivity|]. split; [lia|].
    left. split; [unfold n; lia|]. fold n. fold m1. lia.
  - rewrite Hcarry. change (2 ^ 24) with (Zpos 16777216).
    change (Zdigits2 (Zpos 16777216)) with 25.
    rewrite fexp_normal by lia.
    replace (25 + (ex + n) - 24 - (ex + n)) with 1 by lia.
    cbn [shr shr_record_of_loc shr_m iter_pos shr_1].
    replace (ex + n + 1 <=? 128 - 24) with true
      by (symmetry; apply Z.leb_le; unfold n; lia).
    exists 8388608%positive, (ex + n + 1). split; [reflexivity|].
    split; [cbn; lia|].
    right. split; [unfold n; lia|]. fold n. fold m1.
    split; [|reflexivity]. change (2 ^ 24) with 16777216 in *. lia.
Qed.

(** The product of two positive normal floats. *)
Lemma mul_normal (mx my : positive) (ex ey : Z) :
  2 ^ 23 <= Zpos mx < 2 ^ 24 -> 2 ^ 23 <= Zpos my < 2 ^ 24 ->
  -149 <= ex + ey + 23 -> ex + ey + 24 < 104 ->
  let P := Zpos mx * Zpos my in
  exists m2 e2,
    F32.mul (S754_finite false mx ex) (S754_finite false my ey)
      = S754_finite false m2 e2 /\
    2 ^ 23 <= Zpos m2 < 2 ^ 24 /\
    ((P < 2 ^ 47 /\
      ((e2 = ex + ey + 23 /\
        (Zpos m2 = P / 2 ^ 23 \/ Zpos m2 = P / 2 ^ 23 + 1)) \/
       (e2 = ex + ey + 24 /\ P / 2 ^ 23 + 1 = 2 ^ 24 /\ Zpos m2 = 2 ^ 23))) \/
     (2 ^ 47 <= P /\
      ((e2 = ex + ey + 24 /\
        (Zpos m2 = P / 2 ^ 24 \/ Zpos m2 = P / 2 ^ 24 + 1)) \/
       (e2 = ex + ey + 25 /\ P / 2 ^ 24 + 1 = 2 ^ 24 /\ Zpos m2 = 2 ^ 23)))).
Proof.
  intros Hx Hy Hlo Hhi P.
  assert (HP : 2 ^ 46 <= P < 2 ^ 48).
  { unfold P. change (2 ^ 46) with (2 ^ 23 * 2 ^ 23).
    change (2 ^ 48) with (2 ^ 24 * 2 ^ 24). nia. }
  unfold F32.mul, F32.prec, F32.emax.
  cbn [SFmul xorb]. change (Zpos (mx * my)) with P.
  destruct (Z.lt_ge_cases P (2 ^ 47)) as [Hs | Hl].
  - assert (Hd : Zdigits2 (Zpos (mx * my)) = 47)
      by (apply Zdigits2_unique; change (Zpos (mx * my)) with P;
          change (47 - 1) with 46; lia).
    destruct (binary_round_aux_normal false (mx * my) (ex + ey) loc_Exact 47
                Hd ltac:(lia) ltac:(lia) ltac:(lia))
      as (m2 & e2 & Heq & Hm2 & Hc).
    change (Zpos (mx * my)) with P in Heq, Hc. change (47 - 24) with 23 in Hc.
    exists m2, e2. split; [exact Heq|]. split; [exact Hm2|].
    left. split; [exact Hs|].
    destruct Hc as [[He Hm] | (He & Hc & Hm)]; [left | right];
      repeat split; try assumption; lia.
  - assert (Hd : Zdigits2 (Zpos (mx * my)) = 48)
      by (apply Zdigits2_unique; change (Zpos (mx * my)) with P;
          change (48 - 1) with 47; lia).
    destruct (binary_round_aux_normal false (mx * my) (ex + ey) loc_Exact 48
                Hd ltac:(lia) ltac:(lia) ltac:(lia))
      as (m2 & e2 & Heq & Hm2 & Hc).
    change (Zpos (mx * my)) with P in Heq, Hc. change (48 - 24) with 24 in Hc.
    exists m2, e2. split; [exact Heq|]. split; [exact Hm2|].
    right. split; [exact Hl|].
    destruct Hc as [[He Hm] | (He & Hc & Hm)]; [left | right];
      repeat split; try assumption; lia.
Qed.

(** The quotient of two positive normal floats. *)
Lemma div_normal (mx my : positive) (ex ey : Z) :
  2 ^ 23 <= Zpos mx < 2 ^ 24 -> 2 ^ 23 <= Zpos my < 2 ^ 24 ->
  -149 <= ex - ey - 24 -> ex - ey - 23 < 104 ->
  let q := Zpos mx * 2 ^ 24 / Zpos my in
  exists m2 e2,
    F32.div (S754_finite false mx ex) (S754_finite false my ey)
      = S754_finite false m2 e2 /\
    2 ^ 23 <= Zpos m2 < 2 ^ 24 /\
    ((q < 2 ^ 24 /\
      ((e2 = ex - ey - 24 /\ (Zpos m2 = q \/ Zpos m2 = q + 1)) \/
       (e2 = ex - ey - 23 /\ q + 1 = 2 ^ 24 /\ Zpos m2 = 2 ^ 23))) \/
     (2 ^ 24 <= q /\
      ((e2 = ex - ey - 23 /\ (Zpos m2 = q / 2 \/ Zpos m2 = q / 2 + 1)) \/
       (e2 = ex - ey - 22 /\ q / 2 + 1 = 2 ^ 24 /\ Zpos m2 = 2 ^ 23)))).
Proof.
  intros Hx Hy Hlo Hhi q.
  assert (Hdx : Zdigits2 (Zpos mx) = 24)
    by (apply Zdigits2_unique; change (24 - 1) with 23; lia).
  assert (Hdy : Zdigits2 (Zpos my) = 24)
    by (apply Zdigits2_unique; change (24 - 1) with 23; lia).
  assert (Hq : 2 ^ 23 <= q < 2 ^ 25).
  { unfold q. split.
    - apply Z.div_le_lower_bound; [lia|].
      change (2 ^ 24) with 16777216 in *. change (2 ^ 23) with 8388608 in *. nia.
    - apply Z.div_lt_upper_bound; [lia|].
      change (2 ^ 24) with 16777216 in *. change (2 ^ 23) with 8388608 in *.
      change (2 ^ 25) with 33554432. nia. }
  unfold F32.div, F32.prec, F32.emax, SFdiv, SFdiv_core_binary.
  rewrite Hdx, Hdy.
  replace (24 + ex - (24 + ey)) with (ex - ey) by lia.
  rewrite fexp_normal by lia.
  replace (Z.min (ex - ey - 24) (ex - ey)) with (ex - ey - 24) by lia.
  replace (ex - ey - (ex - ey - 24)) with 24 by lia.
  cbv iota beta. rewrite Z.shiftl_mul_pow2 by lia.
  assert (Hdiv : fst (Z.div_eucl (Zpos mx * 2 ^ 24) (Zpos my)) = q) by reflexivity.
  destruct (Z.div_eucl (Zpos mx * 2 ^ 24) (Zpos my)) as [q' r].
  cbn [fst] in Hdiv. subst q'. cbn [xorb].
  assert (Hqp : exists p, q = Zpos p).
  { destruct q as [| p | p]; [lia | eauto | lia]. }
  destruct Hqp as [p Hp]. rewrite Hp in *.
  destruct (Z.lt_ge_cases (Zpos p) (2 ^ 24)) as [Hs | Hl].
  - assert (Hd : Zdigits2 (Zpos p) = 24)
      by (apply Zdigits2_unique; change (24 - 1) with 23; lia).
    destruct (binary_round_aux_normal false p (ex - ey - 24)
                (new_location (Zpos my) r) 24
                Hd ltac:(lia) ltac:(lia) ltac:(lia))
      as (m2 & e2 & Heq & Hm2 & Hc).
    change (24 - 24) with 0 in Hc. rewrite Z.pow_0_r, Z.div_1_r in Hc.
    exists m2, e2. split; [exact Heq|]. split; [exact Hm2|].
    left. split; [exact Hs|].
    destruct Hc as [[He Hm] | (He & Hc & Hm)]; [left | right];
      repeat split; try assumption; lia.
  - assert (Hd : Zdigits2 (Zpos p) = 25)
      by (apply Zdigits2_unique; change (25 - 1) with 24; lia).
    destruct (binary_round_aux_normal false p (ex - ey - 24)
                (new_location (Zpos my) r) 25
                Hd ltac:(lia) ltac:(lia) ltac:(lia))
      as (m2 & e2 & Heq & Hm2 & Hc).
    change (25 - 24) with 1 in Hc. change (2 ^ 1) with 2 in Hc.
    exists m2, e2. split; [exact Heq|]. split; [exact Hm2|].
    right. split; [exact Hl|].
    destruct Hc as [[He Hm] | (He & Hc & Hm)]; [left | right];
      repeat split; try assumption; lia.
Qed.

Lemma div_bounds a b : 0 < b -> b * (a / b) <= a < b * (a / b) + b.
Proof.
  intros Hb. pose proof (Z.mul_div_le a b Hb).
  pose proof (Z.mul_succ_div_gt a b Hb). lia.
Qed.

Lemma positive_normal_inv lo hi x :
  positive_normal lo hi x = true ->
  exists m e, x = S754_finite false m e /\
              2 ^ 23 <= Zpos m < 2 ^ 24 /\ lo <= e <= hi.
Proof.
  destruct x as [| | | [] m e]; try discriminate. cbn [positive_normal].
  rewrite !andb_true_iff, !Z.leb_le, Z.ltb_lt. intros [[[H1 H2] H3] H4].
  exists m, e. change (2 ^ 23) with 8388608. change (2 ^ 24) with 16777216.
  repeat split; assumption.
Qed.

Lemma positive_normal_intro lo hi m e :
  2 ^ 23 <= Zpos m < 2 ^ 24 -> lo <= e <= hi ->
  positive_normal lo hi (S754_finite false m e) = true.
Proof.
  change (2 ^ 23) with 8388608. change (2 ^ 24) with 16777216.
  intros [H1 H2] [H3 H4]. cbn [positive_normal].
  rewrite !andb_true_iff, !Z.leb_le, Z.ltb_lt. repeat split; assumption.
Qed.

Lemma positive_normal_weaken lo hi lo' hi' x :
  lo' <= lo -> hi <= hi' ->
  positive_normal lo hi x = true -> positive_normal lo' hi' x = true.
Proof.
  intros Hlo Hhi H. destruct (positive_normal_inv _ _ _ H) as (m & e & -> & Hm & He).
  apply positive_normal_intro; [exact Hm | lia].
Qed.

(** On positive finite floats the comparisons are lexicographic on the
    exponent and the mantissa. *)
Lemma ltb_positive m1 e1 m2 e2 :
  F32.ltb (S754_finite false m1 e1) (S754_finite false m2 e2) = true <->
  e1 < e2 \/ (e1 = e2 /\ Zpos m1 < Zpos m2).
Proof.
  unfold F32.ltb, SFltb. cbn [SFcompare].
  change (Pos.compare_cont Eq m1 m2) with (Pos.compare m1 m2).
  destruct (Z.compare_spec e1 e2); [destruct (Pos.compare_spec m1 m2)| |];
    split; intros; try discriminate; try reflexivity; subst; try lia.
Qed.

Lemma ltb_positive_false m1 e1 m2 e2 :
  F32.ltb (S754_finite false m1 e1) (S754_finite false m2 e2) = false <->
  e2 < e1 \/ (e1 = e2 /\ Zpos m2 <= Zpos m1).
Proof.
  pose proof (ltb_positive m1 e1 m2 e2) as H.
  destruct (F32.ltb (S754_finite false m1 e1) (S754_finite false m2 e2)).
  - split; [discriminate|]. intros H'. destruct H as [H _].
    specialize (H eq_refl). lia.
  - split; [|reflexivity]. intros _.
    assert (Hn : ~ (e1 < e2 \/ e1 = e2 /\ Zpos m1 < Zpos m2)).
    { intros Hc. apply H in Hc. discriminate. }
    lia.
Qed.

Lemma leb_positive m1 e1 m2 e2 :
  F32.leb (S754_finite false m1 e1) (S754_finite false m2 e2) = true <->
  e1 < e2 \/ (e1 = e2 /\ Zpos m1 <= Zpos m2).
Proof.
  unfold F32.leb, SFleb. cbn [SFcompare].
  change (Pos.compare_cont Eq m1 m2) with (Pos.compare m1 m2).
  destruct (Z.compare_spec e1 e2); [destruct (Pos.compare_spec m1 m2)| |];
    split; intros; try discriminate; try reflexivity; subst; try lia.
Qed.

(** One decay of a level in the range of [gain_ok]. *)
Lemma decay_product (mg : positive) (eg : Z) :
  2 ^ 23 <= Zpos mg < 2 ^ 24 -> -31 <= eg <= 0 ->
  let P := Zpos mg * 16726884 in
  exists mp ep,
    F32.mul (S754_finite false mg eg) decay_factor = S754_finite false mp ep /\
    2 ^ 23 <= Zpos mp < 2 ^ 24 /\
    ((P < 2 ^ 47 /\ ep = eg - 1 /\ P / 2 ^ 23 <= Zpos mp <= P / 2 ^ 23 + 1) \/
     (P < 2 ^ 47 /\ ep = eg /\ Zpos mp = 2 ^ 23 /\ P / 2 ^ 23 + 1 = 2 ^ 24) \/
     (2 ^ 47 <= P /\ ep = eg /\ P / 2 ^ 24 <= Zpos mp <= P / 2 ^ 24 + 1)).
Proof.
  intros Hmg Heg P.
  destruct (mul_normal mg 16726884 eg (-24) Hmg ltac:(cbn; lia) ltac:(lia)
              ltac:(lia)) as (mp & ep & Heq & Hmp & Hc).
  cbv zeta in Hc. change (Zpos mg * Zpos 16726884) with P in Hc.
  exists mp, ep. split; [exact Heq|]. split; [exact Hmp|].
  destruct Hc as [(Hs & [[He Hm] | (He & Hc & Hm)])
                 | (Hl & [[He Hm] | (He & Hc & Hm)])].
  - left. repeat split; try assumption; lia.
  - right; left. repeat split; try assumption; lia.
  - right; right. repeat split; try assumption; lia.
  - exfalso.
    pose proof (div_bounds P (2 ^ 24) ltac:(lia)) as Hd.
    change (2 ^ 24) with 16777216 in *. unfold P in *. lia.
Qed.

Lemma gain_ok_min_auto_gain : gain_ok min_auto_gain.
Proof. split; reflexivity. Qed.

Lemma gain_ok_decay_once g : gain_ok g -> gain_ok (decay_once g).
Proof.
  intros [Hn _]. destruct (positive_normal_inv _ _ _ Hn) as (mg & eg & -> & Hmg & Heg).
  destruct (decay_product mg eg Hmg Heg) as (mp & ep & Hmul & Hmp & Hc).
  unfold decay_once, F32.max. rewrite Hmul.
  destruct (F32.ltb min_auto_gain (S754_finite false mp ep)) eqn:Hlt;
    [|exact gain_ok_min_auto_gain].
  unfold min_auto_gain in Hlt. pose proof Hlt as Hlt'.
  apply ltb_positive in Hlt'.
  split.
  - apply positive_normal_intro; [exact Hmp|]. lia.
  - apply leb_positive. lia.
Qed.

(** The arithmetic of one frame of the decay branch on 24-bit mantissas:
    [mg], [eg] the level before the frame, [mp], [ep] the decayed level,
    [ml], [el] the raw energy, [q] the quotient the division computes and
    [mr], [er] the normalised output. *)
Lemma decay_ratio_arith (mg eg ml el mp ep q mr er : Z) :
  8388608 <= mg < 16777216 -> 8388608 <= ml < 16777216 ->
  8388608 <= mp < 16777216 -> 8388608 <= mr < 16777216 ->
  -31 <= eg <= 0 -> -23 <= el <= 0 ->
  el < eg \/ (eg = el /\ ml <= mg) ->
  (mg * 16726884 < 140737488355328 /\ ep = eg - 1 /\
     8388608 * mp > mg * 16726884 - 8388608) \/
  (mg * 16726884 < 140737488355328 /\ ep = eg /\ mp = 8388608 /\
     mg * 16726884 >= 8388608 * 16777215) \/
  (140737488355328 <= mg * 16726884 /\ ep = eg /\
     16777216 * mp > mg * 16726884 - 16777216) ->
  mp * q <= ml * 16777216 < mp * q + mp ->
  (q < 16777216 /\
     ((er = el - ep - 24 /\ mr <= q + 1) \/
      (er = el - ep - 23 /\ q + 1 = 16777216 /\ mr = 8388608))) \/
  (16777216 <= q /\
     ((er = el - ep - 23 /\ 2 * mr <= q + 2) \/
      (er = el - ep - 22 /\ q >= 33554430 /\ mr = 8388608))) ->
  -47 <= er <= -23 /\ (er = -23 -> mr <= 8413852).
Proof.
  intros Hmg Hml Hmp Hmr Heg Hel Hle Hp Hq Hr.
  assert (Hq0 : 0 <= q) by nia.
  destruct Hr as [(Hqs & [[Her Hmr'] | (Her & Hqc & Hmr')])
                 | (Hql & [[Her Hmr'] | (Her & Hqc & Hmr')])].
  - (* 24-digit quotient *)
    destruct Hp as [(HPs & He & Hm) | [(HPs & He & Hm & Hcar) | (HPl & He & Hm)]];
      subst ep er; try lia.
    split; [lia|]. intros Hez. assert (E : eg = el) by lia.
    destruct Hle as [Hlt | [_ Hmle]]; [lia|].
    assert (Hqb : q <= 8413851).
    { destruct (Z.le_gt_cases q 8413851) as [Hok | Hbad]; [exact Hok | exfalso].
      assert (8413852 * mp <= mp * q) by (clear - Hbad Hmp; nia). lia. }
    lia.
  - (* 24-digit quotient, carry *)
    assert (Hqv : mp * q = mp * 16777215) by (f_equal; lia).
    destruct Hp as [(HPs & He & Hm) | [(HPs & He & Hm & Hcar) | (HPl & He & Hm)]];
      subst ep er; lia.
  - (* 25-digit quotient *)
    assert (Hge : 16777216 * mp <= mp * q) by (clear - Hql Hmp; nia).
    destruct Hp as [(HPs & He & Hm) | [(HPs & He & Hm & Hcar) | (HPl & He & Hm)]];
      subst ep er.
    + destruct Hle as [Hlt | [E Hmle]]; [|exfalso; lia].
      split; [lia|]. intros Hez.
      assert (Hqb : q <= 16827703).
      { destruct (Z.le_gt_cases q 16827703) as [Hok | Hbad]; [exact Hok | exfalso].
        assert (16827704 * mp <= mp * q) by (clear - Hbad Hmp; nia). lia. }
      lia.
    + split; [lia|]. intros Hez. subst mp.
      destruct Hle as [Hlt | [E Hmle]]; [lia|]. lia.
    + split; [lia|]. intros Hez.
      destruct Hle as [Hlt | [E Hmle]]; [lia|].
      assert (Hqb : q <= 16827703).
      { destruct (Z.le_gt_cases q 16827703) as [Hok | Hbad]; [exact Hok | exfalso].
        assert (16827704 * mp <= mp * q) by (clear - Hbad Hmp; nia).
        assert (mp * 16777216 > ml * 16726884 - 16777216) by lia.
        nia. }
      lia.
  - (* 25-digit quotient, carry *)
    assert (Hge : 33554430 * mp <= mp * q) by (clear - Hqc Hmp; nia).
    destruct Hp as [(HPs & He & Hm) | [(HPs & He & Hm & Hcar) | (HPl & He & Hm)]];
      subst ep er.
    + exfalso. lia.
    + subst mp. destruct Hle as [Hlt | [E Hmle]]; [lia | exfalso; lia].
    + destruct Hle as [Hlt | [E Hmle]]; [lia | exfalso; lia].
Qed.

(** The normalised output of a frame of the decay branch is a positive
    normal float at most [normalized_bound]. *)
Lemma decay_frame_ratio level g :
  gain_ok g -> positive_normal (-23) 0 level = true ->
  F32.ltb g level = false ->
  positive_normal (-47) (-23) (F32.div level (decay_once g)) = true /\
  F32.leb (F32.div level (decay_once g)) normalized_bound = true.
Proof.
  intros [Hng _] Hnl Hle.
  destruct (positive_normal_inv _ _ _ Hng) as (mg & eg & -> & Hmg & Heg).
  destruct (positive_normal_inv _ _ _ Hnl) as (ml & el & -> & Hml & Hel).
  apply ltb_positive_false in Hle.
  destruct (decay_product mg eg Hmg Heg) as (mp & ep & Hmul & Hmp & Hc).
  cbv zeta in Hc.
  assert (Hep : eg - 1 <= ep <= eg) by lia.
  unfold decay_once, F32.max. rewrite Hmul.
  assert (Hlt : F32.ltb min_auto_gain (S754_finite false mp ep) = true).
  { unfold min_auto_gain. apply ltb_positive. lia. }
  rewrite Hlt.
  destruct (div_normal ml mp el ep Hml Hmp ltac:(lia) ltac:(lia))
    as (mr & er & Hdiv & Hmr & Hr).
  cbv zeta in Hr. rewrite Hdiv.
  pose proof (div_bounds (Zpos ml * 2 ^ 24) (Zpos mp) ltac:(lia)) as Hq.
  set (q := Zpos ml * 2 ^ 24 / Zpos mp) in *.
  pose proof (div_bounds q 2 ltac:(lia)) as Hq2.
  pose proof (div_bounds (Zpos mg * 16726884) (2 ^ 23) ltac:(lia)) as HP23.
  pose proof (div_bounds (Zpos mg * 16726884) (2 ^ 24) ltac:(lia)) as HP24.
  change (2 ^ 23) with 8388608 in *. change (2 ^ 24) with 16777216 in *.
  change (2 ^ 47) with 140737488355328 in *.
  assert (Hgoal : -47 <= er <= -23 /\ (er = -23 -> Zpos mr <= 8413852)).
  { apply (decay_ratio_arith (Zpos mg) eg (Zpos ml) el (Zpos mp) ep q (Zpos mr) er);
      try assumption; lia. }
  destruct Hgoal as [Her Hbound].
  split.
  - apply positive_normal_intro; [change (2 ^ 23) with 8388608;
      change (2 ^ 24) with 16777216; lia | lia].
  - unfold normalized_bound. apply leb_positive.
    destruct (Z.eq_dec er (-23)) as [E | E]; [right | left]; [|lia].
    split; [exact E | apply Hbound; exact E].
Qed.

Lemma shiftr_le_250 m n :
  0 <= m <= 16449535 -> 16 <= n -> 0 <= Z.shiftr m n <= 250.
Proof.
  intros Hm Hn. rewrite Z.shiftr_div_pow2 by lia.
  assert (Hp : 2 ^ 16 <= 2 ^ n) by (apply Z.pow_le_mono_r; lia).
  change (2 ^ 16) with 65536 in Hp.
  split.
  - apply Z.div_pos; lia.
  - assert (Zpos_lt : m / 2 ^ n < 251)
      by (apply Z.div_lt_upper_bound; [lia | nia]).
    lia.
Qed.

Lemma shiftr_le_128 m n :
  0 <= m < 16777216 -> 17 <= n -> 0 <= Z.shiftr m n <= 250.
Proof.
  intros Hm Hn. rewrite Z.shiftr_div_pow2 by lia.
  assert (Hp : 2 ^ 17 <= 2 ^ n) by (apply Z.pow_le_mono_r; lia).
  change (2 ^ 17) with 131072 in Hp.
  split.
  - apply Z.div_pos; lia.
  - apply Z.div_le_upper_bound; [lia|]. nia.
Qed.

Lemma to_int_small m e k :
  e < 0 -> 0 <= Z.shiftr (Zpos m) (- e) <= 250 -> k = Z.shiftr (Zpos m) (- e) ->
  F32.to_int (S754_finite false m e) = Some k.
Proof.
  intros He Hb ->. unfold F32.to_int.
  replace (0 <=? e) with false by (symmetry; apply Z.leb_gt; lia).
  replace (-2147483648 <=? Z.shiftr (Zpos m) (- e)) with true
    by (symmetry; apply Z.leb_le; lia).
  replace (Z.shiftr (Zpos m) (- e) <=? 2147483647) with true
    by (symmetry; apply Z.leb_le; lia).
  reflexivity.
Qed.

(** The green component of a normalised output between 0 and
    [normalized_bound]. *)
Lemma green_of_normalized r :
  positive_normal (-47) (-23) r = true ->
  F32.leb r normalized_bound = true ->
  exists k, F32.to_int (F32.mul r green_scale) = Some k /\ 0 <= k <= 250.
Proof.
  intros Hn Hle.
  destruct (positive_normal_inv _ _ _ Hn) as (mr & er & -> & Hmr & Her).
  unfold normalized_bound in Hle. apply leb_positive in Hle.
  destruct (mul_normal mr 16384000 er (-16) Hmr ltac:(cbn; lia) ltac:(lia)
              ltac:(lia)) as (m2 & e2 & Hmul & Hm2 & Hc).
  cbv zeta in Hc. unfold green_scale. rewrite Hmul.
  pose proof (div_bounds (Zpos mr * 16384000) (2 ^ 23) ltac:(lia)) as HP23.
  pose proof (div_bounds (Zpos mr * 16384000) (2 ^ 24) ltac:(lia)) as HP24.
  change (Zpos mr * Zpos 16384000) with (Zpos mr * 16384000) in Hc.
  change (2 ^ 23) with 8388608 in *. change (2 ^ 24) with 16777216 in *.
  change (2 ^ 47) with 140737488355328 in *.
  exists (Z.shiftr (Zpos m2) (- e2)).
  assert (He2 : e2 < 0) by lia.
  assert (Hb : 0 <= Z.shiftr (Zpos m2) (- e2) <= 250).
  { destruct Hc as [(Hs & [[He Hm] | (He & Hcar & Hm)])
                   | (Hl & [[He Hm] | (He & Hcar & Hm)])].
    - destruct (Z.eq_dec er (-23)) as [E | E].
      + apply shiftr_le_250; lia.
      + apply shiftr_le_128; lia.
    - destruct (Z.eq_dec er (-23)) as [E | E]; [exfalso; lia|].
      apply shiftr_le_128; lia.
    - destruct (Z.eq_dec er (-23)) as [E | E]; [exfalso; lia|].
      apply shiftr_le_250; lia.
    - exfalso. lia. }
  split; [|exact Hb].
  apply to_int_small; [exact He2 | exact Hb | reflexivity].
Qed.

(** ** Integers below [2^24] as floats *)

Lemma shr_1_double x :
  0 < x ->
  shr_1 {| shr_m := 2 * x; shr_r := false; shr_s := false |}
    = {| shr_m := x; shr_r := false; shr_s := false |}.
Proof. destruct x as [| p | p]; intros H; [lia | reflexivity | lia]. Qed.

Lemma shr_iter_exact (n : nat) : forall x,
  0 < x ->
  Nat.iter n shr_1
    {| shr_m := x * 2 ^ Z.of_nat n; shr_r := false; shr_s := false |}
    = {| shr_m := x; shr_r := false; shr_s := false |}.
Proof.
  induction n as [| n IH]; intros x Hx.
  - cbn [Nat.iter nat_rect Z.of_nat]. rewrite Z.pow_0_r, Z.mul_1_r. reflexivity.
  - rewrite Nat.iter_succ_r.
    replace (x * 2 ^ Z.of_nat (S n)) with (2 * (x * 2 ^ Z.of_nat n))
      by (rewrite Nat2Z.inj_succ, Z.pow_succ_r by lia; lia).
    rewrite shr_1_double by (apply Z.mul_pos_pos; [lia | apply Z.pow_pos_nonneg; lia]).
    apply IH. exact Hx.
Qed.

Lemma shr_exact x e n :
  0 < x -> 0 <= n ->
  shr {| shr_m := x * 2 ^ n; shr_r := false; shr_s := false |} e n
    = ({| shr_m := x; shr_r := false; shr_s := false |}, e + n).
Proof.
  intros Hx Hn. unfold shr. destruct n as [| p | p]; [| | lia].
  - rewrite Z.pow_0_r, Z.mul_1_r, Z.add_0_r. reflexivity.
  - rewrite iter_pos_nat. rewrite <- (positive_nat_Z p) at 1.
    rewrite shr_iter_exact by exact Hx. reflexivity.
Qed.

(** A mantissa of exactly 24 digits with nothing to round is kept. *)
Lemma binary_round_aux_exact (s : bool) (m : positive) (e : Z) :
  2 ^ 23 <= Zpos m < 2 ^ 24 -> -149 <= e <= 104 ->
  binary_round_aux 24 128 s (Zpos m) e loc_Exact = S754_finite s m e.
Proof.
  intros Hm He.
  assert (Hd : Zdigits2 (Zpos m) = 24)
    by (apply Zdigits2_unique; change (24 - 1) with 23; lia).
  unfold binary_round_aux, shr_fexp. rewrite Hd, fexp_normal by lia.
  replace (24 + e - 24 - e) with 0 by lia.
  cbn [shr shr_record_of_loc shr_m loc_of_shr_record round_nearest_even].
  rewrite Hd, fexp_normal by lia.
  replace (24 + e - 24 - e) with 0 by lia.
  cbn [shr shr_record_of_loc shr_m].
  replace (e <=? 128 - 24) with true by (symmetry; apply Z.leb_le; lia).
  reflexivity.
Qed.

Lemma pos_iter_xO (m d : positive) :
  Zpos (Pos.iter xO m d) = Zpos m * 2 ^ Zpos d.
Proof.
  induction d as [| d IH] using Pos.peano_ind.
  - cbn [Pos.iter]. rewrite Pos2Z.inj_xO. change (2 ^ 1) with 2. lia.
  - rewrite Pos.iter_succ, Pos2Z.inj_xO, IH, Pos2Z.inj_succ.
    rewrite Z.pow_succ_r by lia. lia.
Qed.

Lemma shl_align_value mx ex ez :
  ez <= ex ->
  Zpos (fst (shl_align mx ex ez)) = Zpos mx * 2 ^ (ex - ez) /\
  snd (shl_align mx ex ez) = ez.
Proof.
  intros H. unfold shl_align.
  destruct (ez - ex) as [| d | d] eqn:E.
  - assert (ex = ez) by lia. subst. rewrite Z.sub_diag, Z.pow_0_r.
    cbn [fst snd]. lia.
  - lia.
  - cbn [fst snd]. rewrite pos_iter_xO.
    replace (ex - ez) with (Zpos d) by lia. auto.
Qed.


Lemma log2_digits (n : positive) : Zdigits2 (Zpos n) = Z.log2 (Zpos n) + 1.
Proof.
  apply Zdigits2_unique.
  pose proof (Z.log2_spec (Zpos n) ltac:(lia)) as H.
  replace (Z.log2 (Zpos n) + 1 - 1) with (Z.log2 (Zpos n)) by lia.
  replace (Z.log2 (Zpos n) + 1) with (Z.succ (Z.log2 (Zpos n))) by lia.
  exact H.
Qed.

Lemma canon_mantissa N :
  0 < N < 2 ^ 24 ->
  0 <= Z.log2 N < 24 /\
  2 ^ 23 <= N * 2 ^ (24 - Z.log2 N - 1) < 2 ^ 24.
Proof.
  intros HN.
  pose proof (Z.log2_spec N ltac:(lia)) as [Hlo Hhi].
  pose proof (Z.log2_nonneg N) as H0.
  assert (Hlt : Z.log2 N < 24) by (apply Z.log2_lt_pow2; lia).
  split; [lia|].
  set (l := Z.log2 N) in *.
  assert (Hp : 0 < 2 ^ (24 - l - 1)) by (apply Z.pow_pos_nonneg; lia).
  assert (E1 : 2 ^ 23 = 2 ^ l * 2 ^ (24 - l - 1))
    by (rewrite <- Z.pow_add_r by lia; f_equal; lia).
  assert (E2 : 2 ^ 24 = 2 ^ Z.succ l * 2 ^ (24 - l - 1))
    by (rewrite <- Z.pow_add_r by lia; f_equal; lia).
  rewrite E1 at 1. rewrite E2. split; nia.
Qed.

(** Rounding the integer [N], given as [N * 2^k] with exponent [-k], yields
    its canonical form: nothing is lost. *)
Lemma binary_round_int (M : positive) (N k : Z) :
  0 < N < 2 ^ 24 -> 0 <= k <= 24 -> Zpos M = N * 2 ^ k ->
  binary_round 24 128 false M (- k) = canon N.
Proof.
  intros HN Hk HM.
  destruct (canon_mantissa N HN) as [Hl HC].
  set (l := Z.log2 N) in *.
  set (C := N * 2 ^ (24 - l - 1)) in *.
  assert (HCp : exists c, C = Zpos c).
  { destruct C as [| c | c]; [lia | eauto | lia]. }
  destruct HCp as [c Hc].
  assert (Hcanon : canon N = S754_finite false c (l + 1 - 24)).
  { unfold canon. fold l. fold C. rewrite Hc. reflexivity. }
  rewrite Hcanon.
  assert (HdM : Zdigits2 (Zpos M) = l + 1 + k).
  { apply Zdigits2_unique. rewrite HM.
    pose proof (Z.log2_spec N ltac:(lia)) as [Hlo Hhi]. fold l in Hlo, Hhi.
    assert (Hp : 0 < 2 ^ k) by (apply Z.pow_pos_nonneg; lia).
    replace (l + 1 + k - 1) with (l + k) by lia.
    replace (l + 1 + k) with (Z.succ l + k) by lia.
    rewrite !Z.pow_add_r by lia. split; nia. }
  unfold binary_round.
  change (Zpos (digits2_pos M)) with (Zdigits2 (Zpos M)). rewrite HdM.
  replace (l + 1 + k + - k) with (l + 1) by lia.
  rewrite fexp_normal by lia.
  destruct (Z.le_gt_cases (l + 1 - 24) (- k)) as [Hshl | Hshr].
  - destruct (shl_align_value M (- k) (l + 1 - 24) Hshl) as [Hf Hs].
    destruct (shl_align M (- k) (l + 1 - 24)) as [mz ez].
    cbn [fst snd] in Hf, Hs. subst ez.
    assert (Hmz : mz = c).
    { apply Pos2Z.inj. rewrite Hf, HM, <- Hc. unfold C.
      rewrite <- Z.mul_assoc, <- Z.pow_add_r by lia. f_equal. f_equal. lia. }
    subst mz. apply binary_round_aux_exact; lia.
  - assert (Hal : shl_align M (- k) (l + 1 - 24) = (M, - k)).
    { unfold shl_align. destruct (l + 1 - 24 - - k) eqn:E; try reflexivity. lia. }
    rewrite Hal.
    set (n := l + 1 - 24 + k).
    assert (HMc : Zpos M = Zpos c * 2 ^ n).
    { rewrite HM, <- Hc. unfold C, n.
      rewrite <- Z.mul_assoc, <- Z.pow_add_r by lia. f_equal. f_equal. lia. }
    unfold binary_round_aux, shr_fexp. rewrite HdM.
    replace (l + 1 + k + - k) with (l + 1) by lia.
    rewrite fexp_normal by lia.
    replace (l + 1 - 24 - - k) with n by (unfold n; lia).
    cbn [shr_record_of_loc]. rewrite HMc.
    rewrite shr_exact by (unfold n; lia).
    cbn [shr_m loc_of_shr_record round_nearest_even].
    assert (Hdc : Zdigits2 (Zpos c) = 24)
      by (apply Zdigits2_unique; change (24 - 1) with 23; lia).
    rewrite Hdc, fexp_normal by (unfold n; lia).
    replace (24 + (- k + n) - 24 - (- k + n)) with 0 by lia.
    cbn [shr shr_record_of_loc shr_m].
    replace (- k + n <=? 128 - 24) with true
      by (symmetry; apply Z.leb_le; unfold n; lia).
    f_equal. unfold n. lia.
Qed.

Lemma of_Z_canon N : 0 < N < 2 ^ 24 -> F32.of_Z N = canon N.
Proof.
  intros HN. destruct N as [| n | n]; [lia | | lia].
  unfold F32.of_Z, binary_normalize, F32.prec, F32.emax.
  apply (binary_round_int n (Zpos n) 0); [exact HN | lia |].
  rewrite Z.pow_0_r. lia.
Qed.

Lemma level_ok_of_Z N : 0 <= N < 2 ^ 24 -> level_ok (F32.of_Z N).
Proof.
  intros HN. destruct (Z.eq_dec N 0) as [-> | Hne]; [left; reflexivity|].
  right. rewrite of_Z_canon by lia.
  destruct (canon_mantissa N ltac:(lia)) as [Hl HC].
  unfold canon.
  apply positive_normal_intro; [rewrite Z2Pos.id by lia; exact HC | lia].
Qed.

(** Adding two integers as floats is exact as long as the sum is below
    [2^24]. *)
Lemma add_of_Z a b :
  0 <= a -> 0 <= b -> a + b < 2 ^ 24 ->
  F32.add (F32.of_Z a) (F32.of_Z b) = F32.of_Z (a + b).
Proof.
  intros Ha Hb Hab.
  destruct (Z.eq_dec a 0) as [-> | Hane].
  { destruct (Z.eq_dec b 0) as [-> | Hbne]; [reflexivity|].
    rewrite Z.add_0_l, (of_Z_canon b) by lia. reflexivity. }
  destruct (Z.eq_dec b 0) as [-> | Hbne].
  { rewrite Z.add_0_r, (of_Z_canon a) by lia. reflexivity. }
  rewrite (of_Z_canon a), (of_Z_canon b), (of_Z_canon (a + b)) by lia.
  destruct (canon_mantissa a ltac:(lia)) as [Hla HCa].
  destruct (canon_mantissa b ltac:(lia)) as [Hlb HCb].
  unfold canon at 1 2.
  set (la := Z.log2 a) in *. set (lb := Z.log2 b) in *.
  set (ca := Z.to_pos (a * 2 ^ (24 - la - 1))).
  set (cb := Z.to_pos (b * 2 ^ (24 - lb - 1))).
  assert (Hca : Zpos ca = a * 2 ^ (24 - la - 1)) by (unfold ca; rewrite Z2Pos.id; lia).
  assert (Hcb : Zpos cb = b * 2 ^ (24 - lb - 1)) by (unfold cb; rewrite Z2Pos.id; lia).
  unfold F32.add, F32.prec, F32.emax. cbn [SFadd cond_Zopp].
  set (ez := Z.min (la + 1 - 24) (lb + 1 - 24)).
  destruct (shl_align_value ca (la + 1 - 24) ez ltac:(unfold ez; lia)) as [Hfa _].
  destruct (shl_align_value cb (lb + 1 - 24) ez ltac:(unfold ez; lia)) as [Hfb _].
  set (k := - ez).
  assert (Hk : 0 <= k <= 24) by (unfold k, ez; lia).
  assert (Hsa : Zpos (fst (shl_align ca (la + 1 - 24) ez)) = a * 2 ^ k).
  { rewrite Hfa, Hca, <- Z.mul_assoc, <- Z.pow_add_r by (unfold ez; lia).
    f_equal. f_equal. unfold k. lia. }
  assert (Hsb : Zpos (fst (shl_align cb (lb + 1 - 24) ez)) = b * 2 ^ k).
  { rewrite Hfb, Hcb, <- Z.mul_assoc, <- Z.pow_add_r by (unfold ez; lia).
    f_equal. f_equal. unfold k. lia. }
  rewrite Hsa, Hsb.
  assert (Hp : 0 < 2 ^ k) by (apply Z.pow_pos_nonneg; lia).
  assert (HM : exists M, a * 2 ^ k + b * 2 ^ k = Zpos M).
  { destruct (a * 2 ^ k + b * 2 ^ k) as [| M | M] eqn:E; [nia | eauto | nia]. }
  destruct HM as [M HM]. rewrite HM. cbn [binary_normalize].
  replace ez with (- k) by (unfold k; lia).
  apply binary_round_int; [lia | exact Hk | lia].
Qed.

(** ** Decay *)

(** One decay lowers a level above [min_auto_gain], and never raises one. *)
Lemma decay_once_strict g :
  gain_ok g -> F32.ltb min_auto_gain g = true ->
  F32.ltb (decay_once g) g = true.
Proof.
  intros [Hn _] Habove.
  destruct (positive_normal_inv _ _ _ Hn) as (mg & eg & -> & Hmg & Heg).
  destruct (decay_product mg eg Hmg Heg) as (mp & ep & Hmul & Hmp & Hc).
  cbv zeta in Hc.
  pose proof (div_bounds (Zpos mg * 16726884) (2 ^ 23) ltac:(lia)) as HP23.
  pose proof (div_bounds (Zpos mg * 16726884) (2 ^ 24) ltac:(lia)) as HP24.
  change (2 ^ 23) with 8388608 in *. change (2 ^ 24) with 16777216 in *.
  unfold decay_once, F32.max. rewrite Hmul.
  destruct (F32.ltb min_auto_gain (S754_finite false mp ep)); [|exact Habove].
  apply ltb_positive. lia.
Qed.

Lemma decay_once_below g : gain_ok g -> F32.leb (decay_once g) g = true.
Proof.
  intros Hg. destruct (F32.ltb min_auto_gain g) eqn:Habove.
  - apply ltb_leb. apply decay_once_strict; assumption.
  - destruct Hg as [Hn Hle].
    destruct (positive_normal_inv _ _ _ Hn) as (mg & eg & -> & Hmg & Heg).
    unfold min_auto_gain in Hle, Habove.
    apply leb_positive in Hle. apply ltb_positive_false in Habove.
    assert (Hg : S754_finite false mg eg = min_auto_gain).
    { unfold min_auto_gain. f_equal; [|lia]. apply Pos2Z.inj. lia. }
    rewrite Hg. reflexivity.
Qed.

Lemma gain_ok_iter_decay n g : gain_ok g -> gain_ok (Nat.iter n decay_once g).
Proof.
  intros Hg. induction n as [| n IH]; [exact Hg|].
  cbn [Nat.iter nat_rect]. apply gain_ok_decay_once. exact IH.
Qed.

(** C6, as the claim states it, fails in its part (b): the raw energies 0, 1
    rise strictly, yet after the first frame the level, initialised to
    [min_auto_gain], is [min_auto_gain] and not the raw energy 0 of that
    frame. *)
Lemma rising_energies_from_zero_not_tracked :
  let levels := [F32.of_Z 0; F32.of_Z 1] in
  F32.ltb (nth 0 levels F32.zero) (nth 1 levels F32.zero) = true /\
  gain_after (firstn 1 levels) min_auto_gain = min_auto_gain /\
  gain_after (firstn 1 levels) min_auto_gain <> nth 0 levels F32.zero.
Proof. vm_compute. repeat split; discriminate. Qed.

(** C6, amended.  For one band:
    (a) from the initial level [min_auto_gain], after any sequence of raw
        energies the level is at least [min_auto_gain];
    (b) with raw energies that rise strictly from frame to frame and start
        above the current level, the level after each frame is the raw energy
        of that frame;
    (c) with the raw energy held at 0 and a level at or above
        [min_auto_gain], every frame replaces the level [g] by
        [max (min_auto_gain, g * 0.997f)], the product being rounded to single
        precision; the level never goes below [min_auto_gain], and once it is
        [min_auto_gain] it stays there; for a level in the range of
        [gain_ok] (at least [min_auto_gain], below [2^24]) every such frame
        leaves a level that is not above the one before it, and strictly
        below it as long as that one is above [min_auto_gain]. *)
Theorem auto_gain_floor_attack_decay :
  (forall levels,
     F32.leb min_auto_gain (gain_after levels min_auto_gain) = true) /\
  (forall levels g k,
     rising_from g levels -> (k < length levels)%nat ->
     gain_after (firstn (S k) levels) g = nth k levels g) /\
  (forall g n,
     F32.leb min_auto_gain g = true ->
     gain_after (repeat F32.zero n) g = Nat.iter n decay_once g /\
     F32.leb min_auto_gain (gain_after (repeat F32.zero n) g) = true) /\
  (forall n, gain_after (repeat F32.zero n) min_auto_gain = min_auto_gain) /\
  (forall g n,
     gain_ok g ->
     let before := gain_after (repeat F32.zero n) g in
     let after := gain_after (repeat F32.zero (S n)) g in
     F32.leb after before = true /\
     (F32.ltb min_auto_gain before = true -> F32.ltb after before = true)).
Proof.
  split; [|split; [|split; [|split]]].
  - intros levels. apply gain_after_floor. reflexivity.
  - intros levels g k Hr Hk.
    rewrite gain_after_rising by (apply rising_from_firstn; exact Hr).
    apply last_firstn_succ. exact Hk.
  - intros g n Hg. rewrite gain_after_silence by exact Hg.
    split; [reflexivity | apply iter_decay_floor; exact Hg].
  - intros n. rewrite gain_after_silence by reflexivity.
    apply iter_decay_at_floor.
  - intros g n Hg before after. unfold before, after.
    rewrite !gain_after_silence by apply Hg.
    cbn [Nat.iter nat_rect]. fold (Nat.iter n decay_once g).
    pose proof (gain_ok_iter_decay n g Hg) as Hn.
    split; [apply decay_once_below; exact Hn|].
    intros Habove. apply decay_once_strict; assumption.
Qed.

Lemma auto_gain_floor_attack_decay_witness :
  let levels := [F32.of_Z 3; F32.of_Z 10; F32.of_Z 11] in
  rising_from min_auto_gain levels /\ (1 < length levels)%nat /\
  F32.leb min_auto_gain (F32.of_Z 10) = true /\
  gain_ok (F32.of_Z 10) /\
  gain_after (firstn 2 levels) min_auto_gain = F32.of_Z 10 /\
  gain_after (repeat F32.zero 2) (F32.of_Z 10)
    = decay_once (decay_once (F32.of_Z 10)) /\
  F32.leb (gain_after (repeat F32.zero 3) (F32.of_Z 10))
          (gain_after (repeat F32.zero 2) (F32.of_Z 10)) = true.
Proof.
  intros levels.
  assert (H1 : rising_from min_auto_gain levels)
    by (vm_compute; repeat split; reflexivity).
  assert (H2 : (1 < length levels)%nat) by (vm_compute; lia).
  assert (H3 : F32.leb min_auto_gain (F32.of_Z 10) = true) by reflexivity.
  assert (H4 : gain_ok (F32.of_Z 10)) by (split; reflexivity).
  split; [exact H1|]. split; [exact H2|]. split; [exact H3|].
  split; [exact H4|].
  destruct auto_gain_floor_attack_decay as (_ & Hb & Hc & _ & Hd).
  split; [|split].
  - exact (Hb levels min_auto_gain 1%nat H1 H2).
  - exact (proj1 (Hc (F32.of_Z 10) 2%nat H3)).
  - exact (proj1 (Hd (F32.of_Z 10) 2%nat H4)).
Defined.

(** ** The raw energy of a band is an integer below [2^24] *)

Lemma to_short_range z : -32768 <= to_short z <= 32767.
Proof.
  unfold to_short.
  pose proof (Z.mod_pos_bound (z + 32768) 65536 ltac:(lia)). lia.
Qed.

Lemma bin_energy_range x : 0 <= bin_energy x <= 32767.
Proof.
  unfold bin_energy. pose proof (to_short_range (x - raw_min_value)). lia.
Qed.

Lemma slice_energy_range read_buf count : forall fft_offset,
  0 <= slice_energy read_buf count fft_offset <= 32767 * Z.of_nat count.
Proof.
  induction count as [| c IH]; intros off; [cbn; lia|].
  cbn [slice_energy].
  pose proof (bin_energy_range (nth (Z.to_nat off) read_buf 0)).
  specialize (IH (off + 1)). lia.
Qed.

Lemma band_total_exact read_buf count : forall fft_offset N,
  0 <= N -> N + 32767 * Z.of_nat count < 2 ^ 24 ->
  band_total read_buf count fft_offset (F32.of_Z N)
    = (F32.of_Z (N + slice_energy read_buf count fft_offset),
       fft_offset + Z.of_nat count).
Proof.
  induction count as [| c IH]; intros off N HN Hb.
  - cbn. rewrite !Z.add_0_r. reflexivity.
  - cbn [band_total slice_energy].
    fold (bin_energy (nth (Z.to_nat off) read_buf 0)).
    pose proof (bin_energy_range (nth (Z.to_nat off) read_buf 0)) as Hr.
    rewrite add_of_Z by lia.
    rewrite IH by lia. f_equal; [f_equal|]; lia.
Qed.

(** ** One band, one frame *)

Lemma frame_ok_update level g :
  level_ok level -> gain_ok g ->
  frame_ok g
    {| band_level := level;
       band_auto_gain := update_auto_gain level g;
       band_gain_level := F32.div level (update_auto_gain level g);
       band_green :=
         F32.to_int (F32.mul (F32.div level (update_auto_gain level g))
                             green_scale) |}.
Proof.
  intros Hl Hg. unfold frame_ok. cbn [band_level band_auto_gain band_gain_level band_green].
  split; [exact Hl|]. split; [reflexivity|].
  destruct (F32.ltb g level) eqn:Hraise.
  - (* the level is raised *)
    assert (Hup : update_auto_gain level g = level)
      by (unfold update_auto_gain; rewrite Hraise; reflexivity).
    rewrite Hup.
    assert (Hn : positive_normal (-23) 0 level = true).
    { destruct Hl as [-> | Hn]; [|exact Hn].
      rewrite (min_auto_gain_positive g (proj2 Hg)) in Hraise. discriminate. }
    destruct (positive_normal_inv _ _ _ Hn) as (ml & el & -> & Hml & Hel).
    rewrite div_self.
    split.
    { split.
      - apply positive_normal_intro; [exact Hml | lia].
      - apply ltb_leb. exact (leb_ltb_trans _ _ _ (proj2 Hg) Hraise). }
    split; [reflexivity|].
    split; [intros _; split; reflexivity|].
    split; [reflexivity|]. split; [reflexivity|].
    exists 250. repeat split; try reflexivity; lia.
  - (* the level decays *)
    assert (Hup : update_auto_gain level g = decay_once g)
      by (unfold update_auto_gain; rewrite Hraise; reflexivity).
    rewrite Hup.
    pose proof (gain_ok_decay_once g Hg) as Hg'.
    split; [exact Hg'|]. split; [reflexivity|].
    split; [discriminate|].
    destruct Hl as [-> | Hn].
    + destruct Hg' as [Hn' _].
      destruct (positive_normal_inv _ _ _ Hn') as (mp & ep & -> & _ & _).
      split; [reflexivity|]. split; [reflexivity|].
      exists 0. repeat split; try reflexivity; lia.
    + destruct (decay_frame_ratio level g Hg Hn Hraise) as [Hr Hb].
      split.
      { destruct (positive_normal_inv _ _ _ Hr) as (mr & er & -> & _ & _).
        reflexivity. }
      split; [exact Hb|].
      destruct (green_of_normalized _ Hr Hb) as (k & Hk & Hk250).
      exists k. split; [exact Hk|]. split; [exact Hk250|].
      unfold to_uint8. apply Z.mod_small. lia.
Qed.

Lemma render_band_eq read_buf count fft_offset g :
  0 <= count <= 512 ->
  let level := F32.of_Z (slice_energy read_buf (Z.to_nat count) fft_offset) in
  render_band read_buf count fft_offset g =
    ({| band_level := level;
        band_auto_gain := update_auto_gain level g;
        band_gain_level := F32.div level (update_auto_gain level g);
        band_green :=
          F32.to_int (F32.mul (F32.div level (update_auto_gain level g))
                              green_scale) |},
     fft_offset + count).
Proof.
  intros Hc level. unfold render_band.
  change F32.zero with (F32.of_Z 0).
  rewrite band_total_exact by (change (2 ^ 24) with 16777216; lia).
  rewrite Z.add_0_l, Z2Nat.id by lia. reflexivity.
Qed.

Lemma render_bands_frame_ok read_buf : forall counts gains fft_offset,
  length gains = length counts ->
  Forall (fun c => 0 <= c <= 512) counts ->
  Forall gain_ok gains ->
  Forall2 frame_ok gains (render_bands read_buf counts gains fft_offset).
Proof.
  induction counts as [| c counts IH]; intros gains off Hlen Hc Hg.
  - destruct gains; [constructor | discriminate].
  - destruct gains as [| g gains]; [discriminate|].
    inversion Hc as [| ? ? Hc1 Hc']; subst.
    inversion Hg as [| ? ? Hg1 Hg']; subst.
    cbn [render_bands]. rewrite render_band_eq by exact Hc1. cbv zeta.
    constructor.
    + apply frame_ok_update; [|exact Hg1].
      apply level_ok_of_Z.
      pose proof (slice_energy_range read_buf (Z.to_nat c) off).
      change (2 ^ 24) with 16777216. lia.
    + apply IH; [cbn in Hlen; lia | exact Hc' | exact Hg'].
Qed.

Lemma frequency_bins_count_small :
  Forall (fun c => 0 <= c <= 512) frequency_bins_count.
Proof. unfold frequency_bins_count. repeat constructor; discriminate. Qed.

(** A raw energy at or below the level gives a normalised output of at
    most 1. *)
Lemma div_at_most_one level g :
  positive_normal (-23) 0 level = true -> positive_normal (-31) 0 g = true ->
  F32.ltb g level = false ->
  F32.leb (F32.div level g) F32.one = true.
Proof.
  intros Hnl Hng Hle.
  destruct (positive_normal_inv _ _ _ Hnl) as (ml & el & -> & Hml & Hel).
  destruct (positive_normal_inv _ _ _ Hng) as (mg & eg & -> & Hmg & Heg).
  apply ltb_positive_false in Hle.
  destruct (Z.eq_dec el eg) as [Ee | Ee];
    [destruct (Z.eq_dec (Zpos ml) (Zpos mg)) as [Em | Em]|].
  - apply Pos2Z.inj in Em. subst. rewrite div_self. reflexivity.
  - destruct (div_normal ml mg el eg Hml Hmg ltac:(lia) ltac:(lia))
      as (mr & er & Hdiv & Hmr & Hr).
    cbv zeta in Hr. rewrite Hdiv. unfold F32.one. apply leb_positive.
    pose proof (div_bounds (Zpos ml * 2 ^ 24) (Zpos mg) ltac:(lia)) as Hq.
    set (q := Zpos ml * 2 ^ 24 / Zpos mg) in *.
    change (2 ^ 23) with 8388608 in *. change (2 ^ 24) with 16777216 in *.
    destruct Hr as [(Hqs & [[Her Hmr'] | (Her & Hqc & Hmr')])
                   | (Hql & Hr)]; try lia.
    exfalso. assert (16777216 * Zpos mg <= Zpos mg * q) by nia. lia.
  - destruct (div_normal ml mg el eg Hml Hmg ltac:(lia) ltac:(lia))
      as (mr & er & Hdiv & Hmr & Hr).
    cbv zeta in Hr. rewrite Hdiv. unfold F32.one. apply leb_positive.
    change (2 ^ 23) with 8388608 in *. change (2 ^ 24) with 16777216 in *.
    destruct Hr as [(Hqs & [[Her Hmr'] | (Her & Hqc & Hmr')])
                   | (Hql & [[Her Hmr'] | (Her & Hqc & Hmr')])]; lia.
Qed.

(** C8, as the claim states it, fails: with raw energy 7 and level 7 the
    level is not raised (it decays), and the normalised output is above 1. *)
Lemma normalized_above_one_without_raise :
  let level := F32.of_Z 7 in
  let g := F32.of_Z 7 in
  F32.ltb g level = false /\
  F32.ltb (update_auto_gain level g) g = true /\
  F32.ltb F32.one (F32.div level (update_auto_gain level g)) = true.
Proof. vm_compute. repeat split; reflexivity. Qed.

(** C8, amended.  The normalised output [level / auto_gain_level[i]],
    computed after the update, can be above 1 only in a frame of the decay
    branch, that is a frame in which the level was not raised.  In a frame in
    which the level was raised it is not above 1, and it is exactly 1.0
    whenever the raw energy is finite.  For a raw energy and a level in their
    ranges ([level_ok], [gain_ok]) it is above 1 only if the decayed level
    has fallen below the raw energy. *)
Theorem normalized_above_one_only_in_decay (level g : float) :
  let g' := update_auto_gain level g in
  let r := F32.div level g' in
  (F32.ltb F32.one r = true ->
     F32.ltb g level = false /\ g' = decay_once g) /\
  (F32.ltb g level = true ->
     g' = level /\ F32.ltb F32.one r = false /\
     forall s m e, level = S754_finite s m e -> r = F32.one) /\
  (level_ok level -> gain_ok g -> F32.ltb F32.one r = true ->
     F32.ltb g' level = true).
Proof.
  intros g' r.
  assert (Hraise : F32.ltb g level = true ->
            g' = level /\ F32.ltb F32.one r = false /\
            forall s m e, level = S754_finite s m e -> r = F32.one).
  { intros Hlt.
    assert (Hg' : g' = level) by (unfold g', update_auto_gain; rewrite Hlt; reflexivity).
    assert (Hr : r = F32.div level level) by (unfold r; rewrite Hg'; reflexivity).
    split; [exact Hg'|]. split.
    - rewrite Hr. destruct level as [s | s | | s m e].
      + reflexivity.
      + reflexivity.
      + reflexivity.
      + rewrite div_self. reflexivity.
    - intros s m e ->. rewrite Hr. apply div_self. }
  assert (Hdecay : F32.ltb F32.one r = true ->
            F32.ltb g level = false /\ g' = decay_once g).
  { intros Hgt. destruct (F32.ltb g level) eqn:Hlt.
    - destruct (Hraise eq_refl) as (_ & Hle & _). congruence.
    - split; [reflexivity|]. unfold g', update_auto_gain. rewrite Hlt.
      reflexivity. }
  split; [exact Hdecay|]. split; [exact Hraise|].
  intros Hl Hg Hgt. destruct (Hdecay Hgt) as [Hlt Hg'].
  destruct (F32.ltb g' level) eqn:Hbelow; [reflexivity | exfalso].
  pose proof (gain_ok_decay_once g Hg) as [Hn' _]. rewrite <- Hg' in Hn'.
  destruct Hl as [-> | Hnl].
  - destruct (positive_normal_inv _ _ _ Hn') as (mp & ep & Hp & _ & _).
    unfold r in Hgt. rewrite Hp in Hgt. discriminate.
  - pose proof (div_at_most_one level g' Hnl Hn' Hbelow) as Hle.
    fold r in Hle. rewrite (ltb_irrefl_of_leb _ _ Hle) in Hgt. discriminate.
Qed.

Lemma normalized_above_one_only_in_decay_witness :
  F32.ltb min_auto_gain (F32.of_Z 12) = true /\
  F32.div (F32.of_Z 12) (update_auto_gain (F32.of_Z 12) min_auto_gain)
    = F32.one /\
  level_ok (F32.of_Z 7) /\ gain_ok (F32.of_Z 7) /\
  F32.ltb F32.one (F32.div (F32.of_Z 7) (update_auto_gain (F32.of_Z 7) (F32.of_Z 7)))
    = true /\
  F32.ltb (update_auto_gain (F32.of_Z 7) (F32.of_Z 7)) (F32.of_Z 7) = true.
Proof.
  assert (H : F32.ltb min_auto_gain (F32.of_Z 12) = true) by reflexivity.
  assert (H1 : level_ok (F32.of_Z 7)) by (right; reflexivity).
  assert (H2 : gain_ok (F32.of_Z 7)) by (split; reflexivity).
  assert (H3 : F32.ltb F32.one
                 (F32.div (F32.of_Z 7)
                    (update_auto_gain (F32.of_Z 7) (F32.of_Z 7))) = true)
    by reflexivity.
  split; [exact H|].
  split.
  - destruct (normalized_above_one_only_in_decay (F32.of_Z 12) min_auto_gain)
      as (_ & Hr & _).
    destruct (Hr H) as (_ & _ & Hone).
    exact (Hone false 12582912%positive (-20) eq_refl).
  - split; [exact H1|]. split; [exact H2|]. split; [exact H3|].
    destruct (normalized_above_one_only_in_decay (F32.of_Z 7) (F32.of_Z 7))
      as (_ & _ & Hb).
    exact (Hb H1 H2 H3).
Defined.

(** ** The levels of all bands stay in range *)

Lemma auto_gain_level_set_size m p v :
  auto_gain_level (set_size m p v) = auto_gain_level m.
Proof. destruct p; reflexivity. Qed.

Lemma auto_gain_level_set_buffer m p b :
  auto_gain_level (set_buffer m p b) = auto_gain_level m.
Proof. destruct p; reflexivity. Qed.

Lemma auto_gain_level_interrupt m q :
  auto_gain_level (fst (onPDMdata m q)) = auto_gain_level m.
Proof.
  rewrite onPDMdata_eq. cbn [fst].
  assert (Hh : forall m1, auto_gain_level (onPDMdata_handoff m1)
                          = auto_gain_level m1).
  { intros m1. rewrite onPDMdata_handoff_eq.
    destruct (size_at m1 (write_size m1) =? fft_size); [|reflexivity].
    destruct (size_at m1 (other (write_size m1)) =? 0);
      [reflexivity | apply auto_gain_level_set_size]. }
  rewrite Hh, onPDMdata_read_eq. cbn [fst]. cbv zeta.
  rewrite auto_gain_level_set_size, auto_gain_level_set_buffer. reflexivity.
Qed.

Lemma render_bands_length read_buf : forall counts gains fft_offset,
  length gains = length counts ->
  length (render_bands read_buf counts gains fft_offset) = length counts.
Proof.
  induction counts as [| c counts IH]; intros gains off Hlen.
  - destruct gains; reflexivity.
  - destruct gains as [| g gains]; [discriminate|].
    cbn [render_bands]. destruct (render_band read_buf c off g) as [r off'].
    cbn [length]. rewrite IH; [reflexivity | cbn in Hlen; lia].
Qed.

Lemma frame_ok_gains gains rs :
  Forall2 frame_ok gains rs -> Forall gain_ok (map band_auto_gain rs).
Proof.
  induction 1 as [| g r gains rs Hf _ IH]; [constructor|].
  cbn [map]. constructor; [|exact IH].
  destruct Hf as (_ & _ & Hg & _). exact Hg.
Qed.

Lemma gains_ok_render m read_buf :
  gains_ok m ->
  Forall2 frame_ok (auto_gain_level m)
    (render_bands read_buf frequency_bins_count (auto_gain_level m) 1).
Proof.
  intros [Hlen Hg]. apply render_bands_frame_ok.
  - rewrite Hlen. reflexivity.
  - exact frequency_bins_count_small.
  - exact Hg.
Qed.

Lemma gains_ok_step ZeroFFT s e :
  gains_ok (snd s) -> gains_ok (snd (system_step ZeroFFT s e)).
Proof.
  destruct s as [pc m]. cbn [snd]. intros Hg.
  destruct e as [q |]; cbn [system_step fst snd].
  - unfold gains_ok. rewrite auto_gain_level_interrupt. exact Hg.
  - destruct pc; cbn [loop_step].
    + destruct (negb (size_at m (read_size m) =? fft_size)); exact Hg.
    + unfold gains_ok. cbn [snd]. rewrite auto_gain_level_set_buffer. exact Hg.
    + unfold gains_ok. cbn [snd]. rewrite auto_gain_level_set_buffer. exact Hg.
    + pose proof (gains_ok_render m (buffer_at m (read_buffer m)) Hg) as Hf.
      unfold gains_ok. cbn [snd set_display auto_gain_level].
      split.
      * rewrite length_map, render_bands_length; [reflexivity|].
        rewrite (proj1 Hg). reflexivity.
      * exact (frame_ok_gains _ _ Hf).
    + unfold gains_ok. cbn [snd]. rewrite auto_gain_level_set_size. exact Hg.
    + exact Hg.
    + exact Hg.
Qed.

Lemma reachable_gains_ok ZeroFFT s : reachable ZeroFFT s -> gains_ok (snd s).
Proof.
  intros [es <-]. unfold run.
  assert (H0 : gains_ok (snd initial_system)).
  { split; [reflexivity|].
    change (auto_gain_level (snd initial_system))
      with (repeat min_auto_gain 60).
    apply Forall_forall. intros g Hin.
    apply repeat_spec in Hin. subst g. exact gain_ok_min_auto_gain. }
  revert H0. generalize initial_system.
  induction es as [| e es IH]; intros s H0; [exact H0|].
  cbn [fold_left]. apply IH. apply gains_ok_step. exact H0.
Qed.

(** C10, as the claim states it, fails by a rounding: on the second frame of
    the tone of C7, a frame of the decay branch, the normalised output of
    band 0 is [8413850 * 2^-23], which is above 1/0.997. *)
Lemma normalized_above_reciprocal_of_decay :
  band_gain_level (nth 0 tone_frame2 no_band) = S754_finite false 8413850 (-23) /\
  (1000 # 997 < F32.to_Q (band_gain_level (nth 0 tone_frame2 no_band)))%Q.
Proof. vm_compute. split; reflexivity. Qed.

(** C10, amended.  In every reachable state the level of every band is at
    least [min_auto_gain] and below [2^24], and whatever block the band loop
    renders from such a state, every band satisfies [frame_ok]: the raw
    energy is 0 or between 1 and [2^24]; in a frame in which the level is
    raised the normalised output is exactly 1.0 and the green component 250;
    in every frame the normalised output is at least 0 and at most
    [normalized_bound = 8413852 * 2^-23] (about 1.0030093; the rounding of
    the product and of the quotient can take it above 1/0.997), and the green
    component [int (normalized * 250.0f)] is defined, between 0 and 250, and
    unchanged by the conversion to the 8-bit colour component. *)
Theorem normalized_output_bounded ZeroFFT (s : loop_pc * memory) :
  reachable ZeroFFT s ->
  gains_ok (snd s) /\
  forall read_buf,
    Forall2 frame_ok (auto_gain_level (snd s))
      (render_bands read_buf frequency_bins_count (auto_gain_level (snd s)) 1).
Proof.
  intros Hreach. pose proof (reachable_gains_ok _ _ Hreach) as Hg.
  split; [exact Hg|]. intros read_buf. apply gains_ok_render. exact Hg.
Qed.

Lemma normalized_output_bounded_witness :
  let s := run (fun b => b)
             [Interrupt (repeat 300 1024); Foreground; Foreground; Foreground;
              Foreground]
             initial_system in
  reachable (fun b => b) s /\
  Forall2 frame_ok (auto_gain_level (snd s))
    (render_bands (buffer_at (snd s) (read_buffer (snd s)))
       frequency_bins_count (auto_gain_level (snd s)) 1).
Proof.
  intros s.
  assert (H : reachable (fun b => b) s) by (eexists; reflexivity).
  split; [exact H|].
  exact (proj2 (normalized_output_bounded (fun b => b) s H) _).
Defined.
